(** * Permission rollback simulator

    A shallow embedding of [PermissionRollbackSimulator] (src/main.py):
    the permission mapping, the directed access graph kept in a
    [networkx.DiGraph], [build_dependency_graph] and [simulate_rollback],
    followed by the properties of the impact sets. *)

From stdpp Require Import base strings list gmap sets relations sorting.
From Stdlib Require Import Lia.

Open Scope string_scope.
Open Scope list_scope.
Open Scope nat_scope.

#[local] Set Warnings "-clear-no-such-hyp,-register-all".

(** ** Exceptions

    The two exceptions the simulator can meet, and [RecursionLimit] for a
    traversal that would not finish within its budget of steps. *)

Inductive exn : Type :=
  | KeyError
  | NetworkXError
  | RecursionLimit.

Inductive result (A : Type) : Type :=
  | Ok (a : A)
  | Raise (e : exn).

Arguments Ok {A} a.
Arguments Raise {A} e.

#[global] Instance result_ret : MRet result := λ A a, Ok a.

#[global] Instance result_bind : MBind result := λ A B k r,
  match r with
  | Ok a => k a
  | Raise e => Raise e
  end.

(** [for x in l: s = f s x], stopping at the first exception. *)
Fixpoint for_each {A S : Type} (f : S → A → result S) (s : S) (l : list A)
    : result S :=
  match l with
  | [] => Ok s
  | x :: l' => s' ← f s x ; for_each f s' l'
  end.

(** ** Python dictionaries, in insertion order

    A dictionary is the list of its items.  Python keeps one item per key;
    the operations below are defined on every list and are the dictionary
    operations on the lists without a repeated key. *)

Module Dict.

Definition t (V : Type) : Type := list (string * V).

Definition keys {V} (d : t V) : list string := d.*1.

Definition items {V} (d : t V) : list (string * V) := d.

(** [d.get(k)] *)
Fixpoint get {V} (d : t V) (k : string) : option V :=
  match d with
  | [] => None
  | (k', v) :: d' => if decide (k' = k) then Some v else get d' k
  end.

(** [k in d] *)
Definition contains {V} (d : t V) (k : string) : bool :=
  bool_decide (k ∈ keys d).

(** [d[k]] *)
Definition getitem {V} (d : t V) (k : string) : result V :=
  match get d k with
  | Some v => Ok v
  | None => Raise KeyError
  end.

(** [d[k] = f(d[k])], the entry keeps its place. *)
Definition alter {V} (f : V → V) (k : string) (d : t V) : t V :=
  (λ e, if decide (e.1 = k) then (e.1, f e.2) else e) <$> d.

(** [d[k] = v] for a key that is not in [d] yet. *)
Definition append {V} (d : t V) (k : string) (v : V) : t V := d ++ [(k, v)].

End Dict.

(** ** networkx.DiGraph

    The graph is its successor table [_adj]: a dictionary from each node to
    the dictionary of its successors, both in insertion order.  The
    simulator attaches no attributes, so the inner dictionary is the list
    of its keys. *)

Definition DiGraph : Type := Dict.t (list string).

Definition empty_graph : DiGraph := [].

(** [G.nodes()] *)
Definition nodes (g : DiGraph) : list string := Dict.keys g.

(** [n in G] *)
Definition has_node (g : DiGraph) (n : string) : bool := Dict.contains g n.

(** [G.edges()]: every node with each of its successors. *)
Definition edges (g : DiGraph) : list (string * string) :=
  e ← Dict.items g; (λ v, (e.1, v)) <$> e.2.

(** [G.has_edge(u, v)] *)
Definition has_edge (g : DiGraph) (u v : string) : bool :=
  match Dict.get g u with
  | Some nbrs => bool_decide (v ∈ nbrs)
  | None => false
  end.

(** [G.add_node(n)] *)
Definition add_node (g : DiGraph) (n : string) : DiGraph :=
  if has_node g n then g else Dict.append g n [].

(** [_adj[u][v] = {}]: a successor already present keeps its place. *)
Definition add_nbr (v : string) (nbrs : list string) : list string :=
  if decide (v ∈ nbrs) then nbrs else nbrs ++ [v].

(** [G.add_edge(u, v)] *)
Definition add_edge (g : DiGraph) (u v : string) : DiGraph :=
  Dict.alter (add_nbr v) u (add_node (add_node g u) v).

(** [del _adj[u][v]] *)
Definition del_nbr (v : string) (nbrs : list string) : list string :=
  filter (λ w, w ≠ v) nbrs.

(** [G.remove_edges_from(ebunch)]: edges that are not there are skipped. *)
Definition remove_edge (g : DiGraph) (e : string * string) : DiGraph :=
  if has_edge g e.1 e.2 then Dict.alter (del_nbr e.2) e.1 g else g.

Definition remove_edges_from (g : DiGraph) (ebunch : list (string * string))
    : DiGraph :=
  foldl remove_edge g ebunch.

(** [G.successors(n)], which raises for a node that is not in the graph. *)
Definition successors (g : DiGraph) (n : string) : result (list string) :=
  match Dict.get g n with
  | Some nbrs => Ok nbrs
  | None => Raise NetworkXError
  end.

(** *** Breadth-first search and [networkx.descendants] *)

(** One parent's children: each child not seen before is marked and queued. *)
Fixpoint scan (children visited queue : list string)
    : list string * list string :=
  match children with
  | [] => (visited, queue)
  | c :: cs =>
      if decide (c ∈ visited) then scan cs visited queue
      else scan cs (visited ++ [c]) (queue ++ [c])
  end.

Fixpoint bfs_loop (fuel : nat) (g : DiGraph) (visited queue : list string)
    : result (list string) :=
  match fuel with
  | 0 => Raise RecursionLimit
  | S fuel' =>
      match queue with
      | [] => Ok visited
      | parent :: rest =>
          children ← successors g parent ;
          let '(visited', queue') := scan children visited rest in
          bfs_loop fuel' g visited' queue'
      end
  end.

(** Steps granted to a search: more than the number of nodes it can meet. *)
Definition bfs_fuel (g : DiGraph) : nat := 2 + length (edges g).

(** [nx.descendants(G, source)]: every node reachable from [source], without
    [source] itself; [NetworkXError] when [source] is not in [G]. *)
Definition descendants (g : DiGraph) (source : string) : result (gset string) :=
  if has_node g source then
    visited ← bfs_loop (bfs_fuel g) g [source] [source] ;
    Ok (list_to_set visited ∖ {[source]})
  else Raise NetworkXError.

(** ** PermissionRollbackSimulator *)

Record Simulator : Type := mkSimulator {
  file_system_data : Dict.t (list string);
  graph : DiGraph;
}.

(** [__init__] *)
Definition init (data : Dict.t (list string)) : Simulator :=
  {| file_system_data := data; graph := empty_graph |}.

(** The body of the outer loop of [build_dependency_graph]. *)
Definition add_resource (g : DiGraph) (item : string * list string) : DiGraph :=
  foldl (λ g user, add_edge g user item.1) (add_node g item.1) item.2.

Definition build_graph (g : DiGraph) (data : Dict.t (list string)) : DiGraph :=
  foldl add_resource g (Dict.items data).

Definition build_dependency_graph (self : Simulator) : Simulator :=
  {| file_system_data := file_system_data self;
     graph := build_graph (graph self) (file_system_data self) |}.

(** Step 1 of [simulate_rollback]: the successors of the target. *)
Definition direct_impact (g : DiGraph) (target_user : string) : gset string :=
  foldl (λ acc e, if decide (e.1 = target_user) then acc ∪ {[e.2]} else acc)
        ∅ (edges g).

Definition edges_to_remove (g : DiGraph) (target_user : string)
    : list (string * string) :=
  filter (λ e, e.1 = target_user) (edges g).

(** The [try] around one reachability query: [NetworkXError] is passed
    over, anything else goes on to the caller. *)
Definition add_descendants (g : DiGraph) (acc : gset string) (user : string)
    : result (gset string) :=
  match descendants g user with
  | Ok paths => Ok (acc ∪ paths)
  | Raise NetworkXError => Ok acc
  | Raise e => Raise e
  end.

(** The body of the loop over [self.graph.nodes()]. *)
Definition visit_node (data : Dict.t (list string)) (g : DiGraph)
    (acc : gset string) (node : string) : result (gset string) :=
  if Dict.contains data node then
    users ← Dict.getitem data node ;
    for_each (add_descendants g) acc users
  else Ok acc.

Definition accessible_resources (data : Dict.t (list string)) (g : DiGraph)
    : result (gset string) :=
  for_each (visit_node data g) ∅ (nodes g).

(** [simulate_rollback]: the simulator after the call (its graph is changed
    in place before anything can raise) and the pair of impact sets. *)
Definition simulate_rollback (self : Simulator) (target_user : string)
    : Simulator * result (gset string * gset string) :=
  let data := file_system_data self in
  let impacted_resources := direct_impact (graph self) target_user in
  let g' := remove_edges_from (graph self) (edges_to_remove (graph self) target_user) in
  ({| file_system_data := data; graph := g' |},
   accessible ← accessible_resources data g' ;
   Ok (impacted_resources, list_to_set (Dict.keys data) ∖ accessible)).

(** Building the graph of a mapping and rolling one principal back. *)
Definition run (data : Dict.t (list string)) (target_user : string)
    : Simulator * result (gset string * gset string) :=
  simulate_rollback (build_dependency_graph (init data)) target_user.

(** ** Well-formed graphs and reachability *)

(** What networkx keeps true of [_adj]: node keys are unique, no successor
    is listed twice, and every successor is itself a node. *)
Record wf_graph (g : DiGraph) : Prop := mk_wf_graph {
  wf_nodes : NoDup (nodes g);
  wf_nbrs : Forall (λ e, NoDup e.2) g;
  wf_closed : ∀ u v, (u, v) ∈ edges g → v ∈ nodes g;
}.

(** [u → v] is an edge of [g]. *)
Definition edge (g : DiGraph) (u v : string) : Prop := has_edge g u v = true.

(** The nodes reachable from [p], in the words of the specification: those
    reached from [p] by following directed edges of [g]. *)
Definition reachable_from (g : DiGraph) (p x : string) : Prop :=
  tc (edge g) p x.

(** The descendant set of [p] as networkx has it: the nodes other than [p]
    that are reachable from [p]. *)
Definition descendant_set (g : DiGraph) (p x : string) : Prop :=
  x ≠ p ∧ reachable_from g p x.

(** The principals of a mapping: the members of its permission lists. *)
Definition granted (data : Dict.t (list string)) (p r : string) : Prop :=
  ∃ perms, (r, perms) ∈ data ∧ p ∈ perms.

(** AccessibleResources, in the words of the specification: the union, over
    every resource key [r] and every principal [p] of the permission list of
    [r], of the set [reach g p], where [reach] is the notion of reachability
    in use. *)
Definition accessible_via (reach : DiGraph → string → string → Prop)
    (data : Dict.t (list string)) (g : DiGraph) (x : string) : Prop :=
  ∃ r perms p, Dict.get data r = Some perms ∧ p ∈ perms ∧ reach g p x.

Definition accessible := accessible_via descendant_set.

(** IndirectImpact = keys minus AccessibleResources for the graph built from
    [data] and rolled back for [target_user]. *)
Definition indirect_is_keys_minus
    (reach : DiGraph → string → string → Prop)
    (data : Dict.t (list string)) (target_user : string) : Prop :=
  ∃ direct indirect,
    (run data target_user).2 = Ok (direct, indirect)
    ∧ ∀ x, x ∈ indirect ↔
        x ∈ Dict.keys data
        ∧ ¬ accessible_via reach data (graph (run data target_user).1) x.

(** The same mapping written in another order: the entries permuted, and
    the principals permuted within each permission list. *)
Definition reordered (data1 data2 : Dict.t (list string)) : Prop :=
  ∃ data, data1 ≡ₚ data
          ∧ Forall2 (λ a b, a.1 = b.1 ∧ a.2 ≡ₚ b.2) data data2.

(** The graph without the outgoing edges of [t]: its successor table is
    emptied, the node stays. *)
Definition revoke (g : DiGraph) (t : string) : DiGraph :=
  Dict.alter (λ _, []) t g.

(** The simulator after rolling back each principal of [targets] in turn. *)
Definition rollbacks (self : Simulator) (targets : list string) : Simulator :=
  foldl (λ s t, (simulate_rollback s t).1) self targets.

(** ** [display_results]

    The rows added to the table, in the order of the calls of [add_row].
    [sorted] orders strings as Python does, by code point, which on the
    bytes of a string is the order of [String.leb]. *)

Definition str_le (a b : string) : Prop := String.leb a b = true.

#[global] Instance str_le_dec : RelDecision str_le.
Proof. intros a b. unfold str_le. apply _. Defined.

(** [sorted(s)] for a set of strings. *)
Definition sorted (s : gset string) : list string :=
  merge_sort str_le (elements s).

Definition display_results (impacted_resources indirectly_impacted_resources
    : gset string) : list (string * string) :=
  ((λ resource, ("Directly Impacted", resource))
     <$> sorted impacted_resources)
  ++ ((λ resource, ("Indirectly Impacted", resource))
        <$> sorted indirectly_impacted_resources).

(** ** [main]

    What [json.load] returns. *)
Inductive pyvalue : Type :=
  | PyNone
  | PyBool (b : bool)
  | PyNumber (literal : string)
  | PyStr (s : string)
  | PyList (items : list pyvalue)
  | PyDict (items : list (string * pyvalue)).


(** The messages [main] prints before [sys.exit(1)]. *)
Inductive message : Type :=
  | DataFileNotFound (data_file : string)
  | MustContainDictionary
  | ValuesMustBeLists
  | ListValuesMustBeStrings
  | ErrorDecodingJSON (e : string)
  | ErrorLoadingData (e : string)
  | UnexpectedError (e : exn).


(** The loop over the elements of one value: each must be a [str]. *)
Fixpoint check_strings (v : list pyvalue) : message + list string :=
  match v with
  | [] => inr []
  | PyStr item :: rest =>
      match check_strings rest with
      | inl msg => inl msg
      | inr l => inr (item :: l)
      end
  | _ :: _ => inl ListValuesMustBeStrings
  end.

(** The loop over [file_system_data.items()]: each value must be a [list],
    and its elements are checked before the next item is looked at. *)
Fixpoint check_items (items : list (string * pyvalue))
    : message + Dict.t (list string) :=
  match items with
  | [] => inr []
  | (k, PyList v) :: rest =>
      match check_strings v with
      | inl msg => inl msg
      | inr l =>
          match check_items rest with
          | inl msg => inl msg
          | inr d => inr ((k, l) :: d)
          end
      end
  | _ :: _ => inl ValuesMustBeLists
  end.

(** The validation of the loaded value; what passes is the mapping the
    simulator is given. *)
Definition validate (v : pyvalue) : message + Dict.t (list string) :=
  match v with
  | PyDict items => check_items items
  | _ => inl MustContainDictionary
  end.


(** A mapping as the value [json.load] returns for it. *)
Definition as_pyvalue (data : Dict.t (list string)) : pyvalue :=
  PyDict ((λ item, (item.1, PyList (PyStr <$> item.2))) <$> data).

(** ** Dictionaries *)

Section dict_lemmas.
Context {V : Type}.
Implicit Types (d : Dict.t V) (k : string) (v : V).

Lemma get_Some_elem d k v : Dict.get d k = Some v → (k, v) ∈ d.
Proof.
  induction d as [|[k' v'] d IH]; simpl; [done|].
  case_decide; intros ?; simplify_eq; [left | right; auto].
Qed.

Lemma get_None d k : Dict.get d k = None ↔ k ∉ Dict.keys d.
Proof.
  induction d as [|[k' v'] d IH]; simpl.
  - split; [intros _; apply not_elem_of_nil | done].
  - rewrite not_elem_of_cons, <- IH. case_decide; split; try done.
    + intros [? _]. by simplify_eq.
    + by intros [_ ?].
Qed.

Lemma get_is_Some d k : is_Some (Dict.get d k) ↔ k ∈ Dict.keys d.
Proof.
  rewrite <- not_eq_None_Some, get_None.
  destruct (decide (k ∈ Dict.keys d)); naive_solver.
Qed.

Lemma get_NoDup d k v :
  NoDup (Dict.keys d) → (k, v) ∈ d → Dict.get d k = Some v.
Proof.
  induction d as [|[k' v'] d IH]; simpl; intros Hnd Hin.
  - by apply elem_of_nil in Hin.
  - apply NoDup_cons in Hnd as [Hk Hnd].
    apply elem_of_cons in Hin as [?|Hin]; simplify_eq.
    + by rewrite decide_True.
    + rewrite decide_False; [auto|].
      intros ->. apply Hk. apply list_elem_of_fmap. by exists (k, v).
Qed.

Lemma keys_alter (f : V → V) k d : Dict.keys (Dict.alter f k d) = Dict.keys d.
Proof.
  unfold Dict.keys, Dict.alter. rewrite <- list_fmap_compose.
  apply list_fmap_ext. intros _ e _. simpl. by case_decide.
Qed.

Lemma get_alter (f : V → V) k d k' :
  Dict.get (Dict.alter f k d) k'
  = if decide (k' = k) then f <$> Dict.get d k' else Dict.get d k'.
Proof.
  induction d as [|[k0 v0] d IH]; simpl; [by case_decide|].
  repeat (case_decide; simpl in *; simplify_eq); done.
Qed.

Lemma elem_of_alter (f : V → V) k d k' v' :
  (k', v') ∈ Dict.alter f k d ↔
  ∃ v, (k', v) ∈ d ∧ v' = if decide (k' = k) then f v else v.
Proof.
  unfold Dict.alter. rewrite list_elem_of_fmap. split.
  - intros [[k0 v0] [Heq Hin]]. simpl in Heq.
    case_decide; simplify_eq; exists v0; (split; [done|]).
    + by rewrite decide_True.
    + by rewrite decide_False.
  - intros [v [Hin ->]]. exists (k', v). split; [|done]. simpl. by case_decide.
Qed.

Lemma alter_ext (f h : V → V) k d :
  (∀ v, (k, v) ∈ d → f v = h v) → Dict.alter f k d = Dict.alter h k d.
Proof.
  intros Hfh. apply list_fmap_ext. intros _ [k0 v0] Hin%list_elem_of_lookup_2.
  simpl. case_decide; simplify_eq; [by rewrite Hfh|done].
Qed.

Lemma alter_id (f : V → V) k d :
  (∀ v, (k, v) ∈ d → f v = v) → Dict.alter f k d = d.
Proof.
  intros Hf. rewrite <- (list_fmap_id d) at 2.
  apply list_fmap_ext. intros _ [k0 v0] Hin%list_elem_of_lookup_2.
  simpl. case_decide; simplify_eq; [by rewrite Hf|done].
Qed.

Lemma alter_alter (f h : V → V) k d :
  Dict.alter f k (Dict.alter h k d) = Dict.alter (f ∘ h) k d.
Proof.
  unfold Dict.alter. rewrite <- list_fmap_compose.
  apply list_fmap_ext. intros _ [k0 v0] _. simpl.
  destruct (decide (k0 = k)) as [->|Hne]; simpl.
  - by rewrite decide_True.
  - by rewrite decide_False.
Qed.

End dict_lemmas.

(** ** Lists *)

Section filter_lemmas.
Context {A : Type}.
Implicit Types (l : list A).

Lemma filter_ext_in (P Q : A → Prop) `{∀ x, Decision (P x)}
    `{∀ x, Decision (Q x)} l :
  (∀ x, x ∈ l → P x ↔ Q x) → filter P l = filter Q l.
Proof.
  induction l as [|a l IH]; intros HPQ; [done|].
  rewrite !filter_cons, IH by (intros; apply HPQ; by right).
  destruct (decide (P a)) as [HP|HP], (decide (Q a)) as [HQ|HQ]; try done;
    exfalso; apply (HPQ a) in HP || apply (HPQ a) in HQ; by try left.
Qed.

Lemma filter_all (P : A → Prop) `{∀ x, Decision (P x)} l :
  (∀ x, x ∈ l → P x) → filter P l = l.
Proof.
  induction l as [|a l IH]; intros HP; [done|].
  rewrite filter_cons, decide_True by (apply HP; left).
  f_equal. apply IH. intros; apply HP; by right.
Qed.

Lemma filter_none (P : A → Prop) `{∀ x, Decision (P x)} l :
  (∀ x, x ∈ l → ¬ P x) → filter P l = [].
Proof.
  induction l as [|a l IH]; intros HP; [done|].
  rewrite filter_cons, decide_False by (apply HP; left).
  apply IH. intros; apply HP; by right.
Qed.

End filter_lemmas.

(** ** The graph operations *)

Section graph_lemmas.
Implicit Types (g : DiGraph) (u v n x : string).

Lemma edges_cons n nbrs g :
  edges ((n, nbrs) :: g) = ((λ v, (n, v)) <$> nbrs) ++ edges g.
Proof. done. Qed.

Lemma edges_app g1 g2 : edges (g1 ++ g2) = edges g1 ++ edges g2.
Proof. apply bind_app. Qed.

Lemma elem_of_edges g u v :
  (u, v) ∈ edges g ↔ ∃ nbrs, (u, nbrs) ∈ g ∧ v ∈ nbrs.
Proof.
  unfold edges, Dict.items. rewrite list_elem_of_bind. split.
  - intros [[n nbrs] [Hin Hg]].
    apply list_elem_of_fmap in Hin as [w [? ?]]. simplify_eq/=. eauto.
  - intros [nbrs [? ?]]. exists (u, nbrs). split; [|done].
    apply list_elem_of_fmap. eauto.
Qed.

Lemma edge_iff g u v :
  edge g u v ↔ ∃ nbrs, Dict.get g u = Some nbrs ∧ v ∈ nbrs.
Proof.
  unfold edge, has_edge. destruct (Dict.get g u) as [nbrs|].
  - rewrite bool_decide_eq_true. split; [eauto|].
    by intros [? [? ?]]; simplify_eq.
  - split; [done|]. by intros [? [? ?]].
Qed.

Lemma edge_elem_of g u v : edge g u v → (u, v) ∈ edges g.
Proof.
  rewrite edge_iff, elem_of_edges. intros [nbrs [Hg ?]].
  exists nbrs. split; [by apply get_Some_elem|done].
Qed.

Lemma elem_of_edge g u v : NoDup (nodes g) → (u, v) ∈ edges g → edge g u v.
Proof.
  rewrite edge_iff, elem_of_edges. intros Hnd [nbrs [Hg ?]].
  exists nbrs. split; [by apply get_NoDup|done].
Qed.

Lemma edges_source g u v : (u, v) ∈ edges g → u ∈ nodes g.
Proof.
  rewrite elem_of_edges. intros [nbrs [Hg _]].
  apply list_elem_of_fmap. by exists (u, nbrs).
Qed.

Lemma has_node_true g n : has_node g n = true ↔ n ∈ nodes g.
Proof. unfold has_node, Dict.contains. apply bool_decide_eq_true. Qed.

(** *** [add_node] *)

Lemma elem_of_nodes_add_node g n x :
  x ∈ nodes (add_node g n) ↔ x ∈ nodes g ∨ x = n.
Proof.
  unfold add_node. destruct (has_node g n) eqn:Hn.
  - apply has_node_true in Hn. split; [auto|]. by intros [?| ->].
  - unfold nodes, Dict.keys, Dict.append. rewrite fmap_app, elem_of_app.
    simpl. by rewrite list_elem_of_singleton.
Qed.

Lemma edges_add_node g n : edges (add_node g n) = edges g.
Proof.
  unfold add_node. destruct (has_node g n); [done|].
  unfold Dict.append. rewrite edges_app. apply app_nil_r.
Qed.

Lemma wf_add_node g n : wf_graph g → wf_graph (add_node g n).
Proof.
  intros [Hnd Hnb Hcl]. split.
  - unfold add_node. destruct (has_node g n) eqn:Hn; [done|].
    unfold nodes, Dict.keys, Dict.append. rewrite fmap_app.
    apply NoDup_app. split; [done|]. split; [|apply NoDup_singleton].
    intros x Hx ->%list_elem_of_singleton.
    simpl in Hx. apply has_node_true in Hx. congruence.
  - unfold add_node. destruct (has_node g n); [done|].
    apply Forall_app. split; [done|]. apply Forall_singleton, NoDup_nil_2.
  - intros u v. rewrite edges_add_node, elem_of_nodes_add_node. eauto.
Qed.

(** *** [add_edge] *)

Lemma elem_of_add_nbr v nbrs x : x ∈ add_nbr v nbrs ↔ x ∈ nbrs ∨ x = v.
Proof.
  unfold add_nbr. case_decide.
  - split; [auto|]. by intros [?| ->].
  - by rewrite elem_of_app, list_elem_of_singleton.
Qed.

Lemma NoDup_add_nbr v nbrs : NoDup nbrs → NoDup (add_nbr v nbrs).
Proof.
  unfold add_nbr. case_decide; [done|]. intros Hnd.
  apply NoDup_app. split; [done|]. split; [|apply NoDup_singleton].
  by intros x Hx ->%list_elem_of_singleton.
Qed.

Lemma nodes_add_edge g u v :
  nodes (add_edge g u v) = nodes (add_node (add_node g u) v).
Proof. apply keys_alter. Qed.

Lemma elem_of_nodes_add_edge g u v x :
  x ∈ nodes (add_edge g u v) ↔ x ∈ nodes g ∨ x = u ∨ x = v.
Proof.
  rewrite nodes_add_edge, !elem_of_nodes_add_node. tauto.
Qed.

Lemma elem_of_edges_add_edge g u v a b :
  (a, b) ∈ edges (add_edge g u v) ↔ (a, b) ∈ edges g ∨ (a = u ∧ b = v).
Proof.
  unfold add_edge. set (g2 := add_node (add_node g u) v).
  assert (Hg2 : edges g2 = edges g).
  { unfold g2. by rewrite !edges_add_node. }
  assert (Hu : u ∈ nodes g2).
  { unfold g2. rewrite !elem_of_nodes_add_node. auto. }
  rewrite <- Hg2, !elem_of_edges. split.
  - intros [nbrs [Hin Hb]]. apply elem_of_alter in Hin as [n0 [Hin ->]].
    case_decide; [|by eauto]. subst a.
    apply elem_of_add_nbr in Hb as [Hb| ->]; eauto.
  - intros [[nbrs [Hin Hb]]|[-> ->]].
    + exists (if decide (a = u) then add_nbr v nbrs else nbrs). split.
      * apply elem_of_alter. eauto.
      * case_decide; [|done]. apply elem_of_add_nbr. auto.
    + apply list_elem_of_fmap in Hu as [[u' nbrs] [-> Hin]]. simpl.
      exists (add_nbr v nbrs). split.
      * apply elem_of_alter. exists nbrs. by rewrite decide_True.
      * apply elem_of_add_nbr. auto.
Qed.

Lemma Forall_alter (P : list string → Prop) (f : list string → list string)
    n g :
  (∀ nbrs, P nbrs → P (f nbrs)) →
  Forall (λ e, P e.2) g → Forall (λ e, P e.2) (Dict.alter f n g).
Proof.
  intros Hf Hg. apply Forall_fmap. eapply Forall_impl; [exact Hg|].
  intros [k nbrs] HP. simpl in *. case_decide; simpl; auto.
Qed.

Lemma wf_add_edge g u v : wf_graph g → wf_graph (add_edge g u v).
Proof.
  intros Hwf. apply (wf_add_node _ u), (wf_add_node _ v) in Hwf.
  destruct Hwf as [Hnd Hnb Hcl]. split.
  - by rewrite nodes_add_edge.
  - apply (Forall_alter NoDup); [apply NoDup_add_nbr|done].
  - intros a b. rewrite elem_of_edges_add_edge, elem_of_nodes_add_edge.
    intros [Hab| [-> ->]]; [|auto].
    specialize (Hcl a b). rewrite !edges_add_node in Hcl.
    apply Hcl in Hab. rewrite !elem_of_nodes_add_node in Hab. tauto.
Qed.

End graph_lemmas.

(** ** Removing the outgoing edges of a principal *)

Section removal.
Implicit Types (g : DiGraph) (t u v n : string).

Lemma nodes_remove_edge g e : nodes (remove_edge g e) = nodes g.
Proof.
  unfold remove_edge. destruct (has_edge _ _ _); [apply keys_alter|done].
Qed.

Lemma nodes_remove_edges_from g l : nodes (remove_edges_from g l) = nodes g.
Proof.
  unfold remove_edges_from. revert g.
  induction l as [|e l IH]; intros g; simpl; [done|].
  rewrite IH. apply nodes_remove_edge.
Qed.

Lemma filter_source_eq t n (nbrs : list string) :
  filter (λ e : string * string, e.1 = t) ((λ v, (n, v)) <$> nbrs)
  = if decide (n = t) then (λ v, (n, v)) <$> nbrs else [].
Proof.
  case_decide.
  - apply filter_all. intros [a b] [w [? ?]]%list_elem_of_fmap. by simplify_eq.
  - apply filter_none. intros [a b] [w [? ?]]%list_elem_of_fmap. by simplify_eq.
Qed.

Lemma filter_source_ne t n (nbrs : list string) :
  filter (λ e : string * string, e.1 ≠ t) ((λ v, (n, v)) <$> nbrs)
  = if decide (n = t) then [] else (λ v, (n, v)) <$> nbrs.
Proof.
  case_decide.
  - apply filter_none. intros [a b] [w [? ?]]%list_elem_of_fmap.
    simplify_eq. by intros ?.
  - apply filter_all. intros [a b] [w [? ?]]%list_elem_of_fmap. by simplify_eq.
Qed.

Lemma edges_to_remove_get g t :
  NoDup (nodes g) →
  edges_to_remove g t = (λ v, (t, v)) <$> default [] (Dict.get g t).
Proof.
  unfold edges_to_remove.
  induction g as [|[n nbrs] g IH]; intros Hnd; [done|].
  apply NoDup_cons in Hnd as [Hn Hnd].
  rewrite edges_cons, filter_app, filter_source_eq. simpl.
  destruct (decide (n = t)) as [->|Hne]; simpl.
  - rewrite filter_none, app_nil_r; [done|].
    intros [a b] Hin%edges_source Heq. simpl in Heq. by subst.
  - by apply IH.
Qed.

Lemma remove_edges_foldl t l g :
  NoDup (nodes g) →
  foldl remove_edge g ((λ v, (t, v)) <$> l)
  = Dict.alter (filter (λ w, w ∉ l)) t g.
Proof.
  revert g. induction l as [|v l IH]; intros g Hnd; simpl.
  - symmetry. apply alter_id. intros nbrs _.
    apply filter_all. intros x _. apply not_elem_of_nil.
  - rewrite IH by (by rewrite nodes_remove_edge).
    unfold remove_edge. simpl. destruct (has_edge g t v) eqn:He.
    + rewrite alter_alter. apply alter_ext. intros nbrs _. simpl.
      unfold del_nbr. rewrite list_filter_filter.
      apply filter_ext_in. intros x _. rewrite not_elem_of_cons. tauto.
    + apply alter_ext. intros nbrs Hin.
      apply filter_ext_in. intros x Hx. rewrite not_elem_of_cons.
      split; [|tauto]. intros Hxl. split; [|done]. intros ->.
      unfold has_edge in He. rewrite (get_NoDup _ _ _ Hnd Hin) in He.
      by apply bool_decide_eq_false in He.
Qed.

Lemma remove_out_edges g t :
  NoDup (nodes g) → remove_edges_from g (edges_to_remove g t) = revoke g t.
Proof.
  intros Hnd. unfold remove_edges_from, revoke.
  rewrite edges_to_remove_get, remove_edges_foldl by done.
  apply alter_ext. intros nbrs Hin.
  rewrite (get_NoDup _ _ _ Hnd Hin). simpl.
  apply filter_none. auto.
Qed.

Lemma nodes_revoke g t : nodes (revoke g t) = nodes g.
Proof. apply keys_alter. Qed.

Lemma edges_revoke g t :
  edges (revoke g t) = filter (λ e, e.1 ≠ t) (edges g).
Proof.
  induction g as [|[n nbrs] g IH]; [done|].
  rewrite edges_cons, filter_app, filter_source_ne, <- IH.
  unfold revoke, Dict.alter. rewrite fmap_cons. simpl.
  by destruct (decide (n = t)).
Qed.

Lemma elem_of_edges_revoke g t u v :
  (u, v) ∈ edges (revoke g t) ↔ (u, v) ∈ edges g ∧ u ≠ t.
Proof. rewrite edges_revoke, list_elem_of_filter. simpl. tauto. Qed.

Lemma wf_revoke g t : wf_graph g → wf_graph (revoke g t).
Proof.
  intros [Hnd Hnb Hcl]. split.
  - by rewrite nodes_revoke.
  - apply (Forall_alter NoDup); [|done]. intros _ _. apply NoDup_nil_2.
  - intros u v [Huv _]%elem_of_edges_revoke. rewrite nodes_revoke. eauto.
Qed.

Lemma edge_revoke g t u v :
  NoDup (nodes g) → edge (revoke g t) u v ↔ edge g u v ∧ u ≠ t.
Proof.
  intros Hnd. split.
  - intros He. apply edge_elem_of, elem_of_edges_revoke in He as [He ?].
    split; [by apply elem_of_edge|done].
  - intros [He ?]. apply elem_of_edge; [by rewrite nodes_revoke|].
    apply elem_of_edges_revoke. split; [by apply edge_elem_of|done].
Qed.

End removal.

(** ** Building the graph of a mapping *)

Section build.
Implicit Types (g : DiGraph) (data : Dict.t (list string)).
Implicit Types (r p x : string) (perms : list string).

Lemma wf_empty_graph : wf_graph empty_graph.
Proof.
  split; [apply NoDup_nil_2|apply Forall_nil_2|].
  intros u v Huv. by apply elem_of_nil in Huv.
Qed.

Lemma NoDup_edges g : wf_graph g → NoDup (edges g).
Proof.
  intros [Hnd Hnb _]. unfold edges, Dict.items. apply NoDup_bind.
  - intros [n1 l1] [n2 l2] [a b] H1 H2.
    intros [? [? ?]]%list_elem_of_fmap [? [? ?]]%list_elem_of_fmap.
    simplify_eq/=. f_equal.
    apply (get_NoDup _ _ _ Hnd) in H1, H2. congruence.
  - intros [n l] Hin. simpl. apply NoDup_fmap_2; [by intros ?? [=]|].
    by apply (proj1 (Forall_forall _ _) Hnb (n, l)).
  - by apply NoDup_fmap_1 in Hnd.
Qed.

Lemma grant_users_nodes r perms g x :
  r ∈ nodes g →
  x ∈ nodes (foldl (λ g user, add_edge g user r) g perms)
  ↔ x ∈ nodes g ∨ x ∈ perms.
Proof.
  revert g. induction perms as [|p perms IH]; intros g Hr; simpl.
  - rewrite elem_of_nil. tauto.
  - rewrite IH by (apply elem_of_nodes_add_edge; auto).
    rewrite elem_of_nodes_add_edge, elem_of_cons.
    split; [|tauto]. intros [[?|[?| ->]]|?]; auto.
Qed.

Lemma grant_users_edges r perms g a b :
  (a, b) ∈ edges (foldl (λ g user, add_edge g user r) g perms)
  ↔ (a, b) ∈ edges g ∨ (a ∈ perms ∧ b = r).
Proof.
  revert g. induction perms as [|p perms IH]; intros g; simpl.
  - rewrite elem_of_nil. tauto.
  - rewrite IH, elem_of_edges_add_edge, elem_of_cons. naive_solver.
Qed.

Lemma wf_grant_users r perms g :
  wf_graph g → wf_graph (foldl (λ g user, add_edge g user r) g perms).
Proof.
  revert g. induction perms as [|p perms IH]; intros g Hwf; simpl; [done|].
  by apply IH, wf_add_edge.
Qed.

Lemma add_resource_nodes r perms g x :
  x ∈ nodes (add_resource g (r, perms)) ↔ x ∈ nodes g ∨ x = r ∨ x ∈ perms.
Proof.
  unfold add_resource. simpl.
  rewrite grant_users_nodes by (apply elem_of_nodes_add_node; auto).
  rewrite elem_of_nodes_add_node. tauto.
Qed.

Lemma add_resource_edges r perms g a b :
  (a, b) ∈ edges (add_resource g (r, perms))
  ↔ (a, b) ∈ edges g ∨ (a ∈ perms ∧ b = r).
Proof.
  unfold add_resource. simpl. by rewrite grant_users_edges, edges_add_node.
Qed.

Lemma wf_add_resource item g : wf_graph g → wf_graph (add_resource g item).
Proof. intros Hwf. by apply wf_grant_users, wf_add_node. Qed.

Lemma granted_cons r perms data a b :
  granted ((r, perms) :: data) a b ↔ (a ∈ perms ∧ b = r) ∨ granted data a b.
Proof.
  unfold granted. split.
  - intros [l [[?|?]%elem_of_cons ?]]; simplify_eq; eauto.
  - intros [[? ->]|[l [? ?]]].
    + exists perms. split; [left|done].
    + exists l. split; [by right|done].
Qed.

Lemma build_graph_nodes data g x :
  x ∈ nodes (build_graph g data)
  ↔ x ∈ nodes g ∨ x ∈ Dict.keys data ∨ ∃ r, granted data x r.
Proof.
  unfold build_graph, Dict.items. revert g.
  induction data as [|[r perms] data IH]; intros g; simpl.
  - rewrite elem_of_nil. unfold granted. split; [auto|].
    intros [?|[[]|[r [l [Hin _]]]]]; [done|]. by apply elem_of_nil in Hin.
  - rewrite IH, add_resource_nodes, elem_of_cons.
    setoid_rewrite granted_cons. naive_solver.
Qed.

Lemma build_graph_edges data g a b :
  (a, b) ∈ edges (build_graph g data) ↔ (a, b) ∈ edges g ∨ granted data a b.
Proof.
  unfold build_graph, Dict.items. revert g.
  induction data as [|[r perms] data IH]; intros g; simpl.
  - unfold granted. split; [auto|].
    intros [?|[l [Hin _]]]; [done|]. by apply elem_of_nil in Hin.
  - rewrite IH, add_resource_edges, granted_cons. tauto.
Qed.

Lemma wf_build_graph data g : wf_graph g → wf_graph (build_graph g data).
Proof.
  unfold build_graph, Dict.items. revert g.
  induction data as [|item data IH]; intros g Hwf; simpl; [done|].
  by apply IH, wf_add_resource.
Qed.

End build.

(** ** Breadth-first search *)

Lemma size_list_to_set_le (l : list string) :
  size (list_to_set l : gset string) ≤ length l.
Proof.
  induction l as [|a l IH]; simpl.
  - done.
  - rewrite size_union_alt, size_singleton.
    assert (size (list_to_set l ∖ {[a]} : gset string)
            ≤ size (list_to_set l : gset string)).
    { apply subseteq_size. set_solver. }
    lia.
Qed.

Section bfs.
Variable g : DiGraph.
Implicit Types (vis q children : list string) (U : gset string).

Lemma scan_visited children vis q x :
  x ∈ (scan children vis q).1 ↔ x ∈ vis ∨ x ∈ children.
Proof.
  revert vis q. induction children as [|c cs IH]; intros vis q; simpl.
  - rewrite elem_of_nil. tauto.
  - rewrite elem_of_cons. case_decide as Hc; rewrite IH.
    + split; [tauto|]. intros [?|[->|?]]; auto.
    + rewrite elem_of_app, list_elem_of_singleton. tauto.
Qed.

Lemma scan_queue children vis q x :
  x ∈ (scan children vis q).2 ↔ x ∈ q ∨ (x ∈ children ∧ x ∉ vis).
Proof.
  revert vis q. induction children as [|c cs IH]; intros vis q; simpl.
  - rewrite elem_of_nil. tauto.
  - rewrite elem_of_cons. case_decide as Hc; rewrite IH.
    + split; [tauto|]. intros [?|[[->|?] ?]]; tauto.
    + rewrite elem_of_app, not_elem_of_app, list_elem_of_singleton.
      destruct (decide (x = c)) as [->|?]; tauto.
Qed.

Lemma scan_measure U children vis q :
  (∀ c, c ∈ children → c ∈ U) →
  size (U ∖ list_to_set (scan children vis q).1)
    + length (scan children vis q).2
  = size (U ∖ list_to_set vis) + length q.
Proof.
  revert vis q. induction children as [|c cs IH]; intros vis q HU; simpl.
  - done.
  - assert (∀ c', c' ∈ cs → c' ∈ U) by (intros; apply HU; by right).
    case_decide as Hc; rewrite IH by done; [done|].
    rewrite length_app, list_to_set_app_L. simpl.
    assert (Hsplit : U ∖ list_to_set vis
              = {[c]} ∪ U ∖ (list_to_set vis ∪ ({[c]} ∪ ∅))).
    { specialize (HU c (list_elem_of_here _ _)).
      apply set_eq. intros x. set_unfold.
      destruct (decide (x = c)); naive_solver. }
    rewrite Hsplit, (size_union {[c]}), size_singleton; [lia|].
    set_solver.
Qed.

(** With enough fuel the search ends, in a result or in the error of a
    successor that is not a node. *)
Lemma bfs_loop_ends U fuel vis q :
  (∀ u v, (u, v) ∈ edges g → v ∈ U) →
  size (U ∖ list_to_set vis) + length q < fuel →
  (∃ r, bfs_loop fuel g vis q = Ok r)
  ∨ bfs_loop fuel g vis q = Raise NetworkXError.
Proof.
  intros HU. revert vis q.
  induction fuel as [|fuel IH]; intros vis q Hm; [lia|].
  destruct q as [|parent rest]; simpl; [eauto|].
  unfold successors. destruct (Dict.get g parent) as [children|] eqn:Hg;
    [|by right].
  simpl. destruct (scan children vis rest) as [vis' q'] eqn:Hs.
  apply IH.
  assert (Hc : ∀ c, c ∈ children → c ∈ U).
  { intros c Hc. apply (HU parent), elem_of_edges.
    exists children. split; [by apply get_Some_elem|done]. }
  pose proof (scan_measure U children vis rest Hc) as Hsm.
  rewrite Hs in Hsm. simpl in *. lia.
Qed.

(** In a graph whose successors are all nodes, no lookup fails. *)
Lemma bfs_loop_no_error fuel vis q :
  (∀ u v, (u, v) ∈ edges g → v ∈ nodes g) →
  (∀ x, x ∈ q → x ∈ nodes g) →
  bfs_loop fuel g vis q ≠ Raise NetworkXError.
Proof.
  intros Hcl. revert vis q.
  induction fuel as [|fuel IH]; intros vis q Hq; [done|].
  destruct q as [|parent rest]; simpl; [done|].
  unfold successors. destruct (Dict.get g parent) as [children|] eqn:Hg.
  - simpl. destruct (scan children vis rest) as [vis' q'] eqn:Hs.
    apply IH. intros x Hx.
    assert (Hx' : x ∈ (scan children vis rest).2) by (by rewrite Hs).
    apply scan_queue in Hx' as [?|[Hc _]]; [apply Hq; by right|].
    apply (Hcl parent), elem_of_edges.
    exists children. split; [by apply get_Some_elem|done].
  - exfalso. apply get_None in Hg. apply Hg, Hq. left.
Qed.

(** Everything the search marks is reached from the source. *)
Lemma bfs_loop_sound s fuel vis q r :
  bfs_loop fuel g vis q = Ok r →
  (∀ x, x ∈ q → x ∈ vis) →
  (∀ x, x ∈ vis → rtc (edge g) s x) →
  ∀ x, x ∈ r → rtc (edge g) s x.
Proof.
  revert vis q. induction fuel as [|fuel IH]; intros vis q Hr Hq Hv; [done|].
  destruct q as [|parent rest]; simpl in Hr; [by simplify_eq|].
  unfold successors in Hr.
  destruct (Dict.get g parent) as [children|] eqn:Hg; [|done].
  simpl in Hr. destruct (scan children vis rest) as [vis' q'] eqn:Hs.
  apply (IH vis' q' Hr).
  - intros x Hx.
    assert (Hx' : x ∈ (scan children vis rest).2) by (by rewrite Hs).
    assert (x ∈ (scan children vis rest).1) as Hx1; [|by rewrite Hs in Hx1].
    apply scan_visited. apply scan_queue in Hx' as [?|[? _]]; [|by right].
    left. apply Hq. by right.
  - intros x Hx.
    assert (Hx' : x ∈ (scan children vis rest).1) by (by rewrite Hs).
    apply scan_visited in Hx' as [?|Hc]; [by apply Hv|].
    eapply rtc_r; [apply Hv, Hq; left|].
    apply edge_iff. eauto.
Qed.

(** What the search returns holds what it had marked and is closed under
    the edges of the graph. *)
Lemma bfs_loop_closed fuel vis q r :
  bfs_loop fuel g vis q = Ok r →
  (∀ x, x ∈ vis → x ∈ q ∨ ∀ y, edge g x y → y ∈ vis) →
  (∀ x, x ∈ vis → x ∈ r) ∧ (∀ x y, x ∈ r → edge g x y → y ∈ r).
Proof.
  revert vis q. induction fuel as [|fuel IH]; intros vis q Hr Hinv; [done|].
  destruct q as [|parent rest]; simpl in Hr.
  - simplify_eq. split; [done|]. intros x y Hx Hxy.
    destruct (Hinv x Hx) as [Hnil|Hc]; [by apply elem_of_nil in Hnil|eauto].
  - unfold successors in Hr.
    destruct (Dict.get g parent) as [children|] eqn:Hg; [|done].
    simpl in Hr. destruct (scan children vis rest) as [vis' q'] eqn:Hs.
    assert (Hv : ∀ x, x ∈ vis' ↔ x ∈ vis ∨ x ∈ children).
    { intros x. by rewrite <- scan_visited with (q := rest), Hs. }
    assert (Hq : ∀ x, x ∈ q' ↔ x ∈ rest ∨ (x ∈ children ∧ x ∉ vis)).
    { intros x. by rewrite <- scan_queue, Hs. }
    destruct (IH vis' q' Hr) as [Hsub Hclosed].
    + intros x Hx. destruct (decide (x ∈ vis)) as [Hxv|Hxv].
      * destruct (Hinv x Hxv) as [[->|?]%elem_of_cons|Hc].
        -- right. intros y [l [? ?]]%edge_iff. simplify_eq.
           apply Hv. by right.
        -- left. apply Hq. by left.
        -- right. intros y Hy. apply Hv. left. by apply Hc.
      * left. apply Hq. right. split; [|done].
        apply Hv in Hx as [?|?]; done.
    + split; [|done]. intros x Hx. apply Hsub, Hv. by left.
Qed.

End bfs.

(** ** [descendants] *)

Section descendants_lemmas.
Implicit Types (g : DiGraph) (s p x : string).

Lemma bind_Ok {A B} (a : A) (k : A → result B) : (Ok a ≫= k) = k a.
Proof. done. Qed.

Lemma bind_Raise {A B} (e : exn) (k : A → result B) :
  (Raise e ≫= k) = Raise e.
Proof. done. Qed.

(** The fuel of [descendants] is enough on every graph. *)
Lemma descendants_total g s :
  (∃ S, descendants g s = Ok S) ∨ descendants g s = Raise NetworkXError.
Proof.
  unfold descendants. destruct (has_node g s); [|by right].
  destruct (bfs_loop_ends g (list_to_set (edges g).*2) (bfs_fuel g) [s] [s])
    as [[r Hr]|Hr].
  - intros u v Huv. apply elem_of_list_to_set, list_elem_of_fmap.
    by exists (u, v).
  - unfold bfs_fuel. simpl length.
    pose proof (size_list_to_set_le (edges g).*2) as Hle.
    rewrite length_fmap in Hle.
    assert (size (list_to_set (edges g).*2 ∖ list_to_set [s] : gset string)
            ≤ size (list_to_set (edges g).*2 : gset string)).
    { apply subseteq_size. set_solver. }
    lia.
  - rewrite Hr, bind_Ok. eauto.
  - rewrite Hr, bind_Raise. by right.
Qed.

Lemma tc_edge_source g p x : tc (edge g) p x → p ∈ nodes g.
Proof.
  intros Htc. assert (∃ y, edge g p y) as [y Hy].
  { destruct Htc; eauto. }
  by apply edge_elem_of, edges_source in Hy.
Qed.

(** On a well-formed graph [descendants] returns the descendant set. *)
Lemma descendants_spec g s :
  wf_graph g → s ∈ nodes g →
  ∃ S, descendants g s = Ok S ∧ ∀ x, x ∈ S ↔ descendant_set g s x.
Proof.
  intros Hwf Hs. pose proof (descendants_total g s) as Htot.
  unfold descendants in *.
  rewrite (proj2 (has_node_true g s) Hs) in *.
  destruct (bfs_loop (bfs_fuel g) g [s] [s]) as [r|e] eqn:Hr.
  - rewrite bind_Ok. eexists. split; [done|]. intros x.
    rewrite elem_of_difference, elem_of_list_to_set, elem_of_singleton.
    unfold descendant_set. split.
    + intros [Hx Hne]. split; [done|].
      assert (Hrtc : rtc (edge g) s x).
      { apply (bfs_loop_sound g s _ _ _ _ Hr); [done| |done].
        by intros y ->%list_elem_of_singleton. }
      apply rtc_tc in Hrtc as [?|?]; [by subst|done].
    + intros [Hne Htc]. split; [|done].
      destruct (bfs_loop_closed g _ _ _ _ Hr) as [Hsub Hcl].
      { intros y Hy. by left. }
      apply tc_rtc in Htc. clear Hne. revert x Htc.
      apply (rtc_ind_r (λ z, z ∈ r) s).
      * apply Hsub. left.
      * intros y z _ Hyz Hy. by eapply Hcl.
  - exfalso. rewrite bind_Raise in Htot.
    destruct Htot as [[? ?]|Herr]; [done|]. simplify_eq.
    apply (bfs_loop_no_error g (bfs_fuel g) [s] [s]); [apply Hwf| |done].
    by intros y ->%list_elem_of_singleton.
Qed.

Lemma add_descendants_total g acc p :
  ∃ acc', add_descendants g acc p = Ok acc'.
Proof.
  unfold add_descendants.
  destruct (descendants_total g p) as [[S ->]| ->]; eauto.
Qed.

Lemma add_descendants_spec g acc p :
  wf_graph g →
  ∃ acc', add_descendants g acc p = Ok acc'
          ∧ ∀ x, x ∈ acc' ↔ x ∈ acc ∨ descendant_set g p x.
Proof.
  intros Hwf. unfold add_descendants.
  destruct (decide (p ∈ nodes g)) as [Hp|Hp].
  - destruct (descendants_spec g p Hwf Hp) as [S [-> HS]].
    eexists. split; [done|]. intros x. by rewrite elem_of_union, HS.
  - unfold descendants.
    destruct (has_node g p) eqn:Hn; [by apply has_node_true in Hn|].
    eexists. split; [done|]. intros x. split; [auto|].
    intros [?|[_ Htc]]; [done|]. by apply tc_edge_source in Htc.
Qed.

End descendants_lemmas.

(** ** [simulate_rollback] *)

Section simulate.
Implicit Types (data : Dict.t (list string)) (g : DiGraph) (self : Simulator).
Implicit Types (t x p r : string) (acc : gset string).

Lemma elem_of_direct_impact g t x :
  x ∈ direct_impact g t ↔ (t, x) ∈ edges g.
Proof.
  unfold direct_impact.
  assert (∀ l acc,
    x ∈ foldl (λ acc (e : string * string),
                 if decide (e.1 = t) then acc ∪ {[e.2]} else acc) acc l
    ↔ x ∈ acc ∨ (t, x) ∈ l) as Hfold.
  { induction l as [|[a b] l IH]; intros acc; simpl.
    - rewrite elem_of_nil. tauto.
    - rewrite IH, elem_of_cons. case_decide; simplify_eq/=.
      + rewrite elem_of_union, elem_of_singleton. naive_solver.
      + naive_solver. }
  rewrite Hfold. set_solver.
Qed.

Lemma for_each_add_descendants_total g users acc :
  ∃ acc', for_each (add_descendants g) acc users = Ok acc'.
Proof.
  revert acc. induction users as [|p users IH]; intros acc; simpl; [eauto|].
  destruct (add_descendants_total g acc p) as [acc1 ->].
  rewrite bind_Ok. apply IH.
Qed.

Lemma visit_node_total data g acc node :
  ∃ acc', visit_node data g acc node = Ok acc'.
Proof.
  unfold visit_node. destruct (Dict.contains data node) eqn:Hc; [|eauto].
  apply bool_decide_eq_true, get_is_Some in Hc as [users Hu].
  unfold Dict.getitem. rewrite Hu, bind_Ok.
  apply for_each_add_descendants_total.
Qed.

Lemma accessible_resources_total data g :
  ∃ acc, accessible_resources data g = Ok acc.
Proof.
  unfold accessible_resources. generalize (∅ : gset string) as acc.
  induction (nodes g) as [|n ns IH]; intros acc; simpl; [eauto|].
  destruct (visit_node_total data g acc n) as [acc1 ->].
  rewrite bind_Ok. apply IH.
Qed.

Lemma for_each_add_descendants_spec g users acc :
  wf_graph g →
  ∃ acc', for_each (add_descendants g) acc users = Ok acc'
    ∧ ∀ x, x ∈ acc' ↔ x ∈ acc ∨ ∃ p, p ∈ users ∧ descendant_set g p x.
Proof.
  intros Hwf. revert acc.
  induction users as [|p users IH]; intros acc; simpl.
  - eexists. split; [done|]. intros x. split; [auto|].
    intros [?|[p [Hp _]]]; [done|]. by apply elem_of_nil in Hp.
  - destruct (add_descendants_spec g acc p Hwf) as [acc1 [-> H1]].
    rewrite bind_Ok. destruct (IH acc1) as [acc2 [-> H2]].
    eexists. split; [done|]. intros x. rewrite H2, H1.
    setoid_rewrite elem_of_cons. naive_solver.
Qed.

Lemma visit_node_spec data g acc node :
  wf_graph g →
  ∃ acc', visit_node data g acc node = Ok acc'
    ∧ ∀ x, x ∈ acc' ↔
        x ∈ acc ∨ ∃ perms p, Dict.get data node = Some perms ∧ p ∈ perms
                             ∧ descendant_set g p x.
Proof.
  intros Hwf. unfold visit_node.
  destruct (Dict.contains data node) eqn:Hc.
  - apply bool_decide_eq_true, get_is_Some in Hc as [users Hu].
    unfold Dict.getitem. rewrite Hu, bind_Ok.
    destruct (for_each_add_descendants_spec g users acc Hwf) as [acc1 [-> H1]].
    eexists. split; [done|]. intros x. rewrite H1. naive_solver.
  - apply bool_decide_eq_false in Hc. apply get_None in Hc.
    eexists. split; [done|]. intros x. rewrite Hc. naive_solver.
Qed.

Lemma accessible_resources_spec data g :
  wf_graph g →
  ∃ acc, accessible_resources data g = Ok acc
    ∧ ∀ x, x ∈ acc ↔
        ∃ r perms p, r ∈ nodes g ∧ Dict.get data r = Some perms ∧ p ∈ perms
                     ∧ descendant_set g p x.
Proof.
  intros Hwf. unfold accessible_resources.
  assert (∀ ns acc, ∃ acc', for_each (visit_node data g) acc ns = Ok acc'
    ∧ ∀ x, x ∈ acc' ↔
        x ∈ acc ∨ ∃ r perms p, r ∈ ns ∧ Dict.get data r = Some perms
                               ∧ p ∈ perms ∧ descendant_set g p x) as Hfold.
  { induction ns as [|n ns IH]; intros acc; simpl.
    - eexists. split; [done|]. intros x. split; [auto|].
      intros [?|[r [? [? [Hr _]]]]]; [done|]. by apply elem_of_nil in Hr.
    - destruct (visit_node_spec data g acc n Hwf) as [acc1 [-> H1]].
      rewrite bind_Ok. destruct (IH acc1) as [acc2 [-> H2]].
      eexists. split; [done|]. intros x. rewrite H2, H1.
      setoid_rewrite elem_of_cons. naive_solver. }
  destruct (Hfold (nodes g) ∅) as [acc [-> Hacc]].
  eexists. split; [done|]. intros x. rewrite Hacc. set_solver.
Qed.

Lemma simulate_rollback_data self t :
  file_system_data (simulate_rollback self t).1 = file_system_data self.
Proof. done. Qed.

Lemma simulate_rollback_nodes self t :
  nodes (graph (simulate_rollback self t).1) = nodes (graph self).
Proof. apply nodes_remove_edges_from. Qed.

Lemma simulate_rollback_graph self t :
  NoDup (nodes (graph self)) →
  graph (simulate_rollback self t).1 = revoke (graph self) t.
Proof. intros Hnd. by apply remove_out_edges. Qed.

Lemma simulate_rollback_total self t :
  ∃ direct indirect, (simulate_rollback self t).2 = Ok (direct, indirect).
Proof.
  unfold simulate_rollback. simpl.
  destruct (accessible_resources_total (file_system_data self)
    (remove_edges_from (graph self) (edges_to_remove (graph self) t)))
    as [acc ->].
  rewrite bind_Ok. eauto.
Qed.

(** The two impact sets on a well-formed graph that holds every key of
    the mapping as a node. *)
Lemma simulate_rollback_spec self t :
  wf_graph (graph self) →
  (∀ r, r ∈ Dict.keys (file_system_data self) → r ∈ nodes (graph self)) →
  ∃ direct indirect,
    (simulate_rollback self t).2 = Ok (direct, indirect)
    ∧ (∀ x, x ∈ direct ↔ (t, x) ∈ edges (graph self))
    ∧ (∀ x, x ∈ indirect ↔
         x ∈ Dict.keys (file_system_data self)
         ∧ ¬ accessible (file_system_data self) (revoke (graph self) t) x).
Proof.
  intros Hwf Hkeys. unfold simulate_rollback. simpl.
  rewrite remove_out_edges by apply Hwf.
  destruct (accessible_resources_spec (file_system_data self)
    (revoke (graph self) t) (wf_revoke _ t Hwf)) as [acc [-> Hacc]].
  rewrite bind_Ok. eexists _, _. split; [done|]. split.
  - apply elem_of_direct_impact.
  - intros x. rewrite elem_of_difference, elem_of_list_to_set, Hacc.
    unfold accessible, accessible_via.
    split; intros [Hx Hn]; (split; [done|]).
    + intros [r [perms [p [Hget ?]]]]. apply Hn. exists r, perms, p.
      split; [|done]. rewrite nodes_revoke. apply Hkeys, get_is_Some. eauto.
    + intros [r [perms [p [_ ?]]]]. apply Hn. eauto.
Qed.

(** Building from the empty graph. *)
Lemma wf_built data : wf_graph (graph (build_dependency_graph (init data))).
Proof. apply wf_build_graph, wf_empty_graph. Qed.

Lemma keys_built data r :
  r ∈ Dict.keys data → r ∈ nodes (graph (build_dependency_graph (init data))).
Proof. intros Hr. apply build_graph_nodes. auto. Qed.

End simulate.

(** ** Examples *)

Example basic_graph :
  graph (build_dependency_graph (init [("A", ["u1"]); ("B", ["u1"; "u2"])]))
  = [("A", []); ("u1", ["A"; "B"]); ("B", []); ("u2", ["B"])].
Proof. by vm_compute. Qed.

Example basic_impact :
  (run [("A", ["u1"]); ("B", ["u1"; "u2"])] "u1").2
  = Ok ({["A"; "B"]}, {["A"]}).
Proof. by vm_compute. Qed.

Example cycle_descendants :
  descendants [("a", ["b"]); ("b", ["a"; "c"]); ("c", [])] "a"
  = Ok {["b"; "c"]}.
Proof. by vm_compute. Qed.

Example absent_source :
  descendants [("a", ["b"]); ("b", [])] "z" = Raise NetworkXError.
Proof. by vm_compute. Qed.

(** ** The impact sets *)

(** C1, as the specification words it, with plain reachability, fails
    on a resource granted to itself: X is reached from its principal X over
    the edge X -> X, and is reported as indirectly impacted all the same. *)
Lemma indirect_impact_plain_reachability_fails :
  ¬ indirect_is_keys_minus reachable_from [("X", ["X"])] "nobody".
Proof.
  intros [direct [indirect [Hres Hind]]].
  assert (Hrun : (run [("X", ["X"])] "nobody").2 = Ok (∅, {["X"]}))
    by (by vm_compute).
  rewrite Hrun in Hres. simplify_eq.
  assert (HX : "X" ∈ ({["X"]} : gset string)) by by apply elem_of_singleton.
  apply Hind in HX as [_ Hacc]. apply Hacc.
  exists "X", ["X"], "X". split; [done|]. split; [left|].
  apply tc_once. by vm_compute.
Qed.

(** C1: for every permission mapping and every target principal, the
    indirect-impact set that [simulate_rollback] returns on the graph built
    from the mapping is the set of the mapping's keys minus
    AccessibleResources, the union over every resource key and every
    principal p of its original permission list of the nodes other than p
    itself that are reachable from p by following directed edges in the
    graph as the revocation left it. *)
Theorem indirect_impact_keys_minus_accessible
    (data : Dict.t (list string)) (target_user : string) :
  indirect_is_keys_minus descendant_set data target_user.
Proof.
  unfold indirect_is_keys_minus, run.
  destruct (simulate_rollback_spec (build_dependency_graph (init data))
    target_user (wf_built data) (keys_built data))
    as [direct [indirect [Hres [_ Hind]]]].
  exists direct, indirect. split; [done|].
  rewrite simulate_rollback_graph by apply wf_built. exact Hind.
Qed.

(** C2: on the transitive chain R1 <- groupA <- u1, rolling back u1 gives
    DirectImpact = {groupA} and IndirectImpact = {groupA}; R1 is in neither
    set, and the edge from groupA to R1 is still in the graph. *)
Theorem transitive_chain_impact :
  let data := [("R1", ["groupA"]); ("groupA", ["u1"])] in
  ∃ direct indirect,
    (run data "u1").2 = Ok (direct, indirect)
    ∧ direct = {["groupA"]} ∧ indirect = {["groupA"]}
    ∧ ("R1" ∉ direct) ∧ ("R1" ∉ indirect)
    ∧ has_edge (graph (run data "u1").1) "groupA" "R1" = true.
Proof.
  exists {["groupA"]}, {["groupA"]}.
  split; [by vm_compute|]. repeat split; done.
Qed.

(** C3: for every graph and every target principal, the direct-impact set
    is the set of resources r with an edge target -> r in the graph as the
    call found it; without outgoing edges, and so for a target that is not
    a node, it is empty, and the call returns normally. *)
Theorem direct_impact_successors (self : Simulator) (target_user : string) :
  ∃ direct indirect,
    (simulate_rollback self target_user).2 = Ok (direct, indirect)
    ∧ (∀ r, r ∈ direct ↔ (target_user, r) ∈ edges (graph self))
    ∧ (NoDup (nodes (graph self)) →
       ∀ r, r ∈ direct ↔ has_edge (graph self) target_user r = true)
    ∧ ((∀ r, (target_user, r) ∉ edges (graph self)) → direct = ∅)
    ∧ (target_user ∉ nodes (graph self) → direct = ∅).
Proof.
  destruct (simulate_rollback_total self target_user)
    as [direct [indirect Hres]].
  exists direct, indirect. split; [done|].
  assert (Hd : direct = direct_impact (graph self) target_user).
  { unfold simulate_rollback in Hres. simpl in Hres.
    destruct (accessible_resources _ _); simpl in Hres; by simplify_eq. }
  assert (Hin : ∀ r, r ∈ direct ↔ (target_user, r) ∈ edges (graph self)).
  { intros r. rewrite Hd. apply elem_of_direct_impact. }
  assert (Hnone : (∀ r, (target_user, r) ∉ edges (graph self)) → direct = ∅).
  { intros Hno. apply set_eq. intros r. rewrite Hin.
    split; [by intros ?%Hno|]. by intros ?%not_elem_of_empty. }
  repeat split; try (by apply Hin); try done.
  - intros Hr. apply Hin in Hr. by apply elem_of_edge.
  - intros Hr. apply Hin. by apply edge_elem_of.
  - intros Hnode. apply Hnone. intros r Hr%edges_source. done.
Qed.

(** C4: [simulate_rollback] is total: on every simulator state and every
    target principal it returns a pair of sets; a reachability query for a
    principal that is not in the graph raises [NetworkXError] inside, which
    is passed over and adds nothing. *)
Theorem simulate_rollback_never_raises :
  (∀ (self : Simulator) (target_user : string),
     ∃ direct indirect,
       (simulate_rollback self target_user).2 = Ok (direct, indirect))
  ∧ (∀ (g : DiGraph) (acc : gset string) (user : string),
       user ∉ nodes g →
       descendants g user = Raise NetworkXError
       ∧ add_descendants g acc user = Ok acc).
Proof.
  split; [apply simulate_rollback_total|].
  intros g acc user Hu. unfold add_descendants, descendants.
  destruct (has_node g user) eqn:Hn; [by apply has_node_true in Hn|done].
Qed.

(** ** Repeated rollbacks *)

Section repeated.
Implicit Types (g : DiGraph) (self : Simulator) (ts : list string).

Lemma wf_foldl_revoke g ts : wf_graph g → wf_graph (foldl revoke g ts).
Proof.
  revert g. induction ts as [|t ts IH]; intros g Hwf; simpl; [done|].
  by apply IH, wf_revoke.
Qed.

Lemma nodes_foldl_revoke g ts : nodes (foldl revoke g ts) = nodes g.
Proof.
  revert g. induction ts as [|t ts IH]; intros g; simpl; [done|].
  by rewrite IH, nodes_revoke.
Qed.

Lemma edges_foldl_revoke g ts :
  edges (foldl revoke g ts) = filter (λ e, e.1 ∉ ts) (edges g).
Proof.
  revert g. induction ts as [|t ts IH]; intros g; simpl.
  - symmetry. apply filter_all. intros e _. apply not_elem_of_nil.
  - rewrite IH, edges_revoke, list_filter_filter.
    apply filter_ext_in. intros e _. rewrite not_elem_of_cons. tauto.
Qed.

Lemma rollbacks_data self ts :
  file_system_data (rollbacks self ts) = file_system_data self.
Proof.
  unfold rollbacks. revert self.
  induction ts as [|t ts IH]; intros self; simpl; [done|]. by rewrite IH.
Qed.

Lemma rollbacks_graph self ts :
  wf_graph (graph self) →
  graph (rollbacks self ts) = foldl revoke (graph self) ts.
Proof.
  unfold rollbacks. revert self.
  induction ts as [|t ts IH]; intros self Hwf; [done|].
  cbn [foldl]. rewrite IH.
  - by rewrite simulate_rollback_graph by apply Hwf.
  - rewrite simulate_rollback_graph by apply Hwf. by apply wf_revoke.
Qed.

End repeated.

(** C5: a second [simulate_rollback] on the same simulator works on the
    graph the first one left: after rolling back t1 and then t2 the edges
    are the original ones minus the outgoing edges of both, and the second
    result is the direct and indirect impact in that graph; it is not the
    result of a fresh simulation of t2 over the graph as built. *)
Theorem second_rollback_compounds :
  (∀ (data : Dict.t (list string)) (t1 t2 : string),
     let s0 := build_dependency_graph (init data) in
     let s1 := (simulate_rollback s0 t1).1 in
     let s2 := (simulate_rollback s1 t2).1 in
     edges (graph s2)
       = filter (λ e, e.1 ≠ t1 ∧ e.1 ≠ t2) (edges (graph s0))
     ∧ ∃ direct indirect,
         (simulate_rollback s1 t2).2 = Ok (direct, indirect)
         ∧ (∀ x, x ∈ direct ↔ (t2, x) ∈ edges (graph s0) ∧ t2 ≠ t1)
         ∧ (∀ x, x ∈ indirect ↔
              x ∈ Dict.keys data ∧ ¬ accessible data (graph s2) x))
  ∧ (∃ (data : Dict.t (list string)) (t1 t2 : string),
       t1 ≠ t2
       ∧ (simulate_rollback
            (simulate_rollback (build_dependency_graph (init data)) t1).1
            t2).2
         ≠ (run data t2).2).
Proof.
  split.
  - intros data t1 t2 s0 s1 s2.
    assert (Hwf0 : wf_graph (graph s0)) by apply wf_built.
    assert (Hg1 : graph s1 = revoke (graph s0) t1).
    { apply simulate_rollback_graph, Hwf0. }
    assert (Hwf1 : wf_graph (graph s1)).
    { rewrite Hg1. by apply wf_revoke. }
    assert (Hg2 : graph s2 = revoke (graph s1) t2).
    { apply simulate_rollback_graph, Hwf1. }
    split.
    + rewrite Hg2, Hg1, !edges_revoke, list_filter_filter.
      apply filter_ext_in. intros e _. tauto.
    + destruct (simulate_rollback_spec s1 t2 Hwf1)
        as [direct [indirect [Hres [Hd Hi]]]].
      { intros r Hr. unfold s1. rewrite simulate_rollback_nodes.
        by apply keys_built. }
      exists direct, indirect. split; [done|]. split.
      * intros x. rewrite Hd, Hg1, elem_of_edges_revoke. tauto.
      * intros x. rewrite Hi, Hg2. done.
  - exists [("A", ["u1"]); ("B", ["u2"])], "u1", "u2". split; [done|].
    assert ((simulate_rollback (simulate_rollback (build_dependency_graph
               (init [("A", ["u1"]); ("B", ["u2"])])) "u1").1 "u2").2
            = Ok ({["B"]}, {["A"; "B"]})) as -> by (by vm_compute).
    assert ((run [("A", ["u1"]); ("B", ["u2"])] "u2").2
            = Ok ({["B"]}, {["B"]})) as -> by (by vm_compute).
    by intros [=].
Qed.

(** C6: the nodes of the graph built from a mapping are exactly the keys of
    the mapping and the principals of its permission lists;
    [simulate_rollback] leaves the nodes of any graph as they are; and
    after any number of rollbacks on the built graph the edges are the
    built ones minus every outgoing edge of the targets, nothing else. *)
Theorem nodes_fixed_edges_of_targets_removed :
  (∀ (data : Dict.t (list string)) (x : string),
     x ∈ nodes (graph (build_dependency_graph (init data)))
     ↔ x ∈ Dict.keys data ∨ ∃ r, granted data x r)
  ∧ (∀ (self : Simulator) (target_user : string),
       nodes (graph (simulate_rollback self target_user).1)
       = nodes (graph self))
  ∧ (∀ (data : Dict.t (list string)) (targets : list string),
       let s0 := build_dependency_graph (init data) in
       nodes (graph (rollbacks s0 targets)) = nodes (graph s0)
       ∧ edges (graph (rollbacks s0 targets))
         = filter (λ e, e.1 ∉ targets) (edges (graph s0))).
Proof.
  split; [|split].
  - intros data x. unfold build_dependency_graph, init. simpl.
    rewrite build_graph_nodes. split; [|auto].
    intros [Hx|?]; [|done]. by apply elem_of_nil in Hx.
  - apply simulate_rollback_nodes.
  - intros data targets s0.
    rewrite rollbacks_graph by apply wf_built.
    by rewrite nodes_foldl_revoke, edges_foldl_revoke.
Qed.

(** C7: in the graph built from a mapping there is an edge from p to r
    exactly when a permission list of r contains p, and no ordered pair
    has two edges: the edge list has no duplicates, and the mapping
    R : [u1, u1] gives the single edge u1 -> R. *)
Theorem edges_are_grants_without_duplicates :
  (∀ (data : Dict.t (list string)) (p r : string),
     has_edge (graph (build_dependency_graph (init data))) p r = true
     ↔ granted data p r)
  ∧ (∀ (data : Dict.t (list string)) (p r : string),
       NoDup (Dict.keys data) →
       (p, r) ∈ edges (graph (build_dependency_graph (init data)))
       ↔ ∃ perms, Dict.get data r = Some perms ∧ p ∈ perms)
  ∧ (∀ data : Dict.t (list string),
       NoDup (edges (graph (build_dependency_graph (init data)))))
  ∧ edges (graph (build_dependency_graph (init [("R", ["u1"; "u1"])])))
    = [("u1", "R")].
Proof.
  assert (Hedges : ∀ (data : Dict.t (list string)) p r,
    (p, r) ∈ edges (graph (build_dependency_graph (init data)))
    ↔ granted data p r).
  { intros data p r. unfold build_dependency_graph, init. simpl.
    rewrite build_graph_edges. split; [|auto].
    intros [Hx|?]; [|done]. by apply elem_of_nil in Hx. }
  split; [|split; [|split]].
  - intros data p r. rewrite <- Hedges. split.
    + apply edge_elem_of.
    + apply elem_of_edge, wf_built.
  - intros data p r Hnd. rewrite Hedges. unfold granted.
    split; intros [perms [Hin ?]]; exists perms; (split; [|done]).
    + by apply get_NoDup.
    + by apply get_Some_elem.
  - intros data. apply NoDup_edges, wf_built.
  - by vm_compute.
Qed.

(** C8: when the target principal has no outgoing edge, as when it is not
    a node of the graph, [simulate_rollback] returns an empty DirectImpact
    and leaves the graph, and so its edges, as they were. *)
Theorem rollback_without_edges_changes_nothing
    (self : Simulator) (target_user : string) :
  (target_user ∉ nodes (graph self)
   ∨ ∀ r, (target_user, r) ∉ edges (graph self)) →
  ∃ direct indirect,
    (simulate_rollback self target_user).2 = Ok (direct, indirect)
    ∧ direct = ∅
    ∧ graph (simulate_rollback self target_user).1 = graph self
    ∧ edges (graph (simulate_rollback self target_user).1)
      = edges (graph self).
Proof.
  intros Hno.
  assert (Hnone : ∀ r, (target_user, r) ∉ edges (graph self)).
  { destruct Hno as [Hnode|?]; [|done]. by intros r Hr%edges_source. }
  assert (Hrm : edges_to_remove (graph self) target_user = []).
  { apply filter_none. intros [u v] Huv Hu. simpl in Hu. subst u.
    by apply Hnone in Huv. }
  assert (Hg : graph (simulate_rollback self target_user).1 = graph self).
  { unfold simulate_rollback. simpl. by rewrite Hrm. }
  destruct (simulate_rollback_total self target_user)
    as [direct [indirect Hres]].
  exists direct, indirect. split; [done|]. split; [|by rewrite Hg].
  unfold simulate_rollback in Hres. simpl in Hres.
  destruct (accessible_resources _ _); simpl in Hres; simplify_eq.
  apply set_eq. intros r. rewrite elem_of_direct_impact.
  split; [by intros ?%Hnone|]. by intros ?%not_elem_of_empty.
Qed.

Lemma rollback_without_edges_changes_nothing_witness :
  let self := build_dependency_graph (init [("A", ["u1"])]) in
  ∃ direct indirect,
    (simulate_rollback self "nobody").2 = Ok (direct, indirect)
    ∧ direct = ∅
    ∧ graph (simulate_rollback self "nobody").1 = graph self
    ∧ edges (graph (simulate_rollback self "nobody").1) = edges (graph self).
Proof.
  intros self.
  apply (rollback_without_edges_changes_nothing self "nobody").
  left. intros Hn%has_node_true. vm_compute in Hn. discriminate.
Defined.

(** ** Reordering the mapping *)

Section reorder.
Implicit Types (d : Dict.t (list string)) (p r x : string).

Lemma Forall2_keys d d2 :
  Forall2 (λ a b, a.1 = b.1 ∧ a.2 ≡ₚ b.2) d d2 → Dict.keys d = Dict.keys d2.
Proof.
  induction 1 as [|[r1 l1] [r2 l2] ?? [Hk _] _ IH]; simpl in *; [done|].
  by rewrite Hk, IH.
Qed.

Lemma Forall2_granted d d2 p r :
  Forall2 (λ a b, a.1 = b.1 ∧ a.2 ≡ₚ b.2) d d2 →
  granted d p r ↔ granted d2 p r.
Proof.
  induction 1 as [|[r1 l1] [r2 l2] ?? [Hk Hp] _ IH]; simpl in *; [done|].
  rewrite !granted_cons, IH. subst r2. by rewrite Hp.
Qed.

Lemma Permutation_granted d1 d p r :
  d1 ≡ₚ d → granted d1 p r ↔ granted d p r.
Proof. intros Hp. unfold granted. by setoid_rewrite Hp. Qed.

Lemma reordered_keys d1 d2 x :
  reordered d1 d2 → x ∈ Dict.keys d1 ↔ x ∈ Dict.keys d2.
Proof.
  intros [d [Hp HF]]. rewrite <- (Forall2_keys _ _ HF).
  unfold Dict.keys. by rewrite Hp.
Qed.

Lemma reordered_granted d1 d2 p r :
  reordered d1 d2 → granted d1 p r ↔ granted d2 p r.
Proof.
  intros [d [Hp HF]].
  by rewrite (Permutation_granted _ _ _ _ Hp), (Forall2_granted _ _ _ _ HF).
Qed.

End reorder.

(** C9: building is deterministic and does not depend on the order of the
    mapping: two mappings that differ only in the order of their keys and
    of the principals within each permission list give graphs with the
    same set of nodes and the same set of edges. *)
Theorem build_graph_order_insensitive (data1 data2 : Dict.t (list string)) :
  reordered data1 data2 →
  let g1 := graph (build_dependency_graph (init data1)) in
  let g2 := graph (build_dependency_graph (init data2)) in
  (list_to_set (nodes g1) : gset string) = list_to_set (nodes g2)
  ∧ (list_to_set (edges g1) : gset (string * string)) = list_to_set (edges g2).
Proof.
  intros Hre g1 g2. unfold g1, g2, build_dependency_graph, init. simpl.
  split; apply set_eq.
  - intros x. rewrite !elem_of_list_to_set, !build_graph_nodes.
    rewrite (reordered_keys _ _ x Hre).
    by setoid_rewrite (reordered_granted data1 data2 x _ Hre).
  - intros [p r]. rewrite !elem_of_list_to_set, !build_graph_edges.
    by rewrite (reordered_granted _ _ p r Hre).
Qed.

Lemma build_graph_order_insensitive_witness :
  let g1 := graph (build_dependency_graph
                     (init [("A", ["u1"; "u2"]); ("B", ["u1"])])) in
  let g2 := graph (build_dependency_graph
                     (init [("B", ["u1"]); ("A", ["u2"; "u1"])])) in
  (list_to_set (nodes g1) : gset string) = list_to_set (nodes g2)
  ∧ (list_to_set (edges g1) : gset (string * string)) = list_to_set (edges g2).
Proof.
  apply (build_graph_order_insensitive
           [("A", ["u1"; "u2"]); ("B", ["u1"])]
           [("B", ["u1"]); ("A", ["u2"; "u1"])]).
  exists [("B", ["u1"]); ("A", ["u1"; "u2"])]. split.
  - apply perm_swap.
  - repeat constructor.
Defined.

(** ** Resources granted only to themselves *)

Lemma tc_into_sink {A} (R : relation A) (p x : A) :
  (∀ y, R y x → y = x) → tc R p x → p = x.
Proof.
  intros Hsink Htc%tc_rtc.
  assert (Hback : ∀ z, rtc R p z → z = x → p = x).
  { apply (rtc_ind_r (λ z, z = x → p = x) p); [done|].
    intros y z _ Hyz IH ->. apply IH. by apply Hsink. }
  by apply (Hback x).
Qed.

(** C10: the descendant set of a principal never holds the principal
    itself, so a resource whose permission list holds nobody but the
    resource is indirectly impacted whatever principal is rolled back. *)
Theorem self_granted_resource_is_orphaned
    (data : Dict.t (list string)) (resource target_user : string) :
  resource ∈ Dict.keys data →
  (∀ perms p, (resource, perms) ∈ data → p ∈ perms → p = resource) →
  ∃ direct indirect,
    (run data target_user).2 = Ok (direct, indirect)
    ∧ resource ∈ indirect
    ∧ ∀ p, ¬ descendant_set (graph (run data target_user).1) p p.
Proof.
  intros Hkey Hself. unfold run.
  set (s0 := build_dependency_graph (init data)).
  destruct (simulate_rollback_spec s0 target_user (wf_built data)
    (keys_built data)) as [direct [indirect [Hres [_ Hind]]]].
  exists direct, indirect. split; [done|]. split.
  - apply Hind. split; [done|].
    intros [r [perms [p [_ [_ [Hne Htc]]]]]]. apply Hne. symmetry.
    apply (tc_into_sink (edge (revoke (graph s0) target_user)) p resource);
      [|done].
    intros y [Hy _]%edge_revoke; [|apply wf_built].
    apply edge_elem_of in Hy. unfold s0, build_dependency_graph, init in Hy.
    simpl in Hy. apply build_graph_edges in Hy as [Hnil|[l [Hin Hp]]].
    + by apply elem_of_nil in Hnil.
    + by apply (Hself l).
  - by intros p [Hne _].
Qed.

Lemma self_granted_resource_is_orphaned_witness :
  ∃ direct indirect,
    (run [("X", ["X"])] "nobody").2 = Ok (direct, indirect)
    ∧ "X" ∈ indirect
    ∧ ∀ p, ¬ descendant_set (graph (run [("X", ["X"])] "nobody").1) p p.
Proof.
  apply (self_granted_resource_is_orphaned [("X", ["X"])] "X" "nobody").
  - apply list_elem_of_here.
  - intros perms p Hin%list_elem_of_singleton Hp. simplify_eq.
    by apply list_elem_of_singleton in Hp.
Defined.


(** ** The simulator after some rollbacks *)

Section rolled.
Implicit Types (data : Dict.t (list string)) (g : DiGraph) (self : Simulator).
Implicit Types (ts : list string) (t u v r p x : string).

Lemma simulator_eq self1 self2 :
  file_system_data self1 = file_system_data self2 →
  graph self1 = graph self2 → self1 = self2.
Proof. destruct self1, self2. simpl. by intros -> ->. Qed.

Lemma built_edges data u v :
  (u, v) ∈ edges (graph (build_dependency_graph (init data)))
  ↔ granted data u v.
Proof.
  unfold build_dependency_graph, init. simpl.
  rewrite build_graph_edges. split; [|auto].
  intros [Hx|?]; [|done]. by apply elem_of_nil in Hx.
Qed.

Lemma granted_key data p r : granted data p r → r ∈ Dict.keys data.
Proof.
  intros [perms [Hin _]]. apply list_elem_of_fmap. by exists (r, perms).
Qed.

Lemma rolled_wf data ts :
  wf_graph (graph (rollbacks (build_dependency_graph (init data)) ts)).
Proof.
  rewrite rollbacks_graph by apply wf_built.
  apply wf_foldl_revoke, wf_built.
Qed.

Lemma rolled_keys data ts r :
  r ∈ Dict.keys (file_system_data
                   (rollbacks (build_dependency_graph (init data)) ts)) →
  r ∈ nodes (graph (rollbacks (build_dependency_graph (init data)) ts)).
Proof.
  rewrite rollbacks_data, rollbacks_graph by apply wf_built.
  rewrite nodes_foldl_revoke. apply keys_built.
Qed.

Lemma rolled_edges data ts u v :
  (u, v) ∈ edges (graph (rollbacks (build_dependency_graph (init data)) ts))
  ↔ granted data u v ∧ u ∉ ts.
Proof.
  rewrite rollbacks_graph by apply wf_built.
  rewrite edges_foldl_revoke, list_elem_of_filter, built_edges. simpl. tauto.
Qed.

Lemma rollbacks_snoc self ts t :
  rollbacks self (ts ++ [t]) = (simulate_rollback (rollbacks self ts) t).1.
Proof. unfold rollbacks. by rewrite foldl_snoc. Qed.

Lemma revoke_revoke g t : revoke (revoke g t) t = revoke g t.
Proof. unfold revoke. rewrite alter_alter. by apply alter_ext. Qed.

Lemma direct_impact_revoke g t : direct_impact (revoke g t) t = ∅.
Proof.
  apply set_eq. intros r. rewrite elem_of_direct_impact, elem_of_edges_revoke.
  split; [by intros [_ ?]|]. by intros ?%not_elem_of_empty.
Qed.

Lemma simulate_rollback_unfold self t :
  NoDup (nodes (graph self)) →
  simulate_rollback self t
  = ({| file_system_data := file_system_data self;
        graph := revoke (graph self) t |},
     accessible ← accessible_resources (file_system_data self)
                    (revoke (graph self) t);
     Ok (direct_impact (graph self) t,
         list_to_set (Dict.keys (file_system_data self)) ∖ accessible)).
Proof. intros Hnd. unfold simulate_rollback. by rewrite remove_out_edges. Qed.

Lemma tc_mono {A} (R1 R2 : relation A) (a0 b0 : A) :
  (∀ a b, R1 a b → R2 a b) → tc R1 a0 b0 → tc R2 a0 b0.
Proof.
  intros Hsub Htc. induction Htc as [a b Hab|a b c Hab _ IH].
  - apply tc_once. by apply Hsub.
  - eapply tc_l; [apply Hsub, Hab|exact IH].
Qed.

Lemma accessible_mono data g1 g2 x :
  (∀ u v, edge g2 u v → edge g1 u v) →
  accessible data g2 x → accessible data g1 x.
Proof.
  intros Hsub [r [perms [p [Hget [Hp [Hne Htc]]]]]].
  exists r, perms, p. split; [done|]. split; [done|]. split; [done|].
  by apply (tc_mono (edge g2)).
Qed.

Lemma foldl_revoke_fmap g ts :
  foldl revoke g ts
  = (λ e, if decide (e.1 ∈ ts) then (e.1, []) else e) <$> g.
Proof.
  revert g. induction ts as [|t ts IH]; intros g; simpl.
  - rewrite <- (list_fmap_id g) at 1. apply list_fmap_ext.
    by intros _ e _.
  - rewrite IH. unfold revoke, Dict.alter. rewrite <- list_fmap_compose.
    apply list_fmap_ext. intros _ [k nbrs] _. simpl.
    destruct (decide (k = t)) as [->|Hne]; simpl.
    + rewrite (decide_True (P := t ∈ t :: ts)) by left.
      by destruct (decide (t ∈ ts)).
    + destruct (decide (k ∈ ts)) as [Hin|Hin].
      * by rewrite decide_True by (by right).
      * rewrite decide_False; [done|].
        by intros [?|?]%elem_of_cons.
Qed.

End rolled.

(** ** Further properties of [simulate_rollback] *)

(** X1: after any rollbacks, DirectImpact is the set of resources whose
    permission list names the target, and it is empty for a target that was
    rolled back before; it holds keys of the mapping only. *)
Theorem direct_impact_is_grants_of_target
    (data : Dict.t (list string)) (targets : list string) (t : string) :
  ∃ direct indirect,
    (simulate_rollback
       (rollbacks (build_dependency_graph (init data)) targets) t).2
    = Ok (direct, indirect)
    ∧ (∀ r, r ∈ direct ↔ granted data t r ∧ t ∉ targets)
    ∧ (∀ r, r ∈ direct → r ∈ Dict.keys data).
Proof.
  destruct (simulate_rollback_spec
    (rollbacks (build_dependency_graph (init data)) targets) t
    (rolled_wf data targets) (rolled_keys data targets))
    as [direct [indirect [Hres [Hd _]]]].
  exists direct, indirect. split; [done|].
  assert (Hgr : ∀ r, r ∈ direct ↔ granted data t r ∧ t ∉ targets).
  { intros r. by rewrite Hd, rolled_edges. }
  split; [done|]. intros r [Hg _]%Hgr. by apply granted_key in Hg.
Qed.

(** X2: after any rollbacks, a resource is indirectly impacted exactly when
    every principal of its permission list is the resource itself or one of
    the principals rolled back so far: a single grant from anybody else
    keeps it out, and longer chains never matter. *)
Theorem indirect_impact_is_one_hop
    (data : Dict.t (list string)) (targets : list string) (t : string) :
  NoDup (Dict.keys data) →
  ∃ direct indirect,
    (simulate_rollback
       (rollbacks (build_dependency_graph (init data)) targets) t).2
    = Ok (direct, indirect)
    ∧ ∀ r, r ∈ indirect ↔
        ∃ perms, Dict.get data r = Some perms
                 ∧ ∀ p, p ∈ perms → p = r ∨ p ∈ t :: targets.
Proof.
  intros Hnd.
  set (s := rollbacks (build_dependency_graph (init data)) targets).
  destruct (simulate_rollback_spec s t (rolled_wf data targets)
    (rolled_keys data targets)) as [direct [indirect [Hres [_ Hi]]]].
  exists direct, indirect. split; [done|]. intros r. rewrite Hi.
  unfold s at 1. rewrite rollbacks_data.
  assert (Hedge : ∀ u v, edge (revoke (graph s) t) u v
                         ↔ granted data u v ∧ u ∉ t :: targets).
  { intros u v. rewrite edge_revoke by apply rolled_wf.
    rewrite not_elem_of_cons. split.
    - intros [He ?]. apply edge_elem_of, rolled_edges in He. tauto.
    - intros [Hg [? ?]]. split; [|done].
      apply elem_of_edge; [apply rolled_wf|]. by apply rolled_edges. }
  split.
  - intros [Hkey Hacc]. apply get_is_Some in Hkey as [perms Hget].
    exists perms. split; [done|]. intros p Hp.
    destruct (decide (p = r)) as [|Hpr]; [by left|].
    destruct (decide (p ∈ t :: targets)) as [|Hpt]; [by right|].
    exfalso. apply Hacc. exists r, perms, p. unfold s. rewrite rollbacks_data.
    split; [done|]. split; [done|]. split; [by intros ->|].
    apply tc_once, Hedge. split; [|done].
    exists perms. split; [by apply get_Some_elem|done].
  - intros [perms [Hget Hall]]. split; [apply get_is_Some; eauto|].
    intros [r0 [perms0 [p0 [_ [_ [Hne Htc]]]]]]. apply Hne. symmetry.
    apply (tc_into_sink (edge (revoke (graph s) t)) p0 r); [|done].
    intros y [[l [Hin Hy]] Hnot]%Hedge.
    rewrite (get_NoDup _ _ _ Hnd Hin) in Hget. simplify_eq.
    by destruct (Hall y Hy).
Qed.

Lemma indirect_impact_is_one_hop_witness :
  ∃ direct indirect,
    (simulate_rollback
       (rollbacks (build_dependency_graph
                     (init [("R1", ["groupA"]); ("groupA", ["u1"; "u2"])]))
                  ["u2"]) "u1").2
    = Ok (direct, indirect)
    ∧ ∀ r, r ∈ indirect ↔
        ∃ perms,
          Dict.get [("R1", ["groupA"]); ("groupA", ["u1"; "u2"])] r
          = Some perms
          ∧ ∀ p, p ∈ perms → p = r ∨ p ∈ ["u1"; "u2"].
Proof.
  apply (indirect_impact_is_one_hop
           [("R1", ["groupA"]); ("groupA", ["u1"; "u2"])] ["u2"] "u1").
  apply (bool_decide_unpack _). by vm_compute.
Defined.

(** X3: rolling the same principal back a second time changes nothing: the
    simulator stays as the first call left it, DirectImpact is empty and
    IndirectImpact is the one the first call reported. *)
Theorem rollback_again_changes_nothing
    (data : Dict.t (list string)) (targets : list string) (t : string) :
  let s := rollbacks (build_dependency_graph (init data)) targets in
  let s1 := (simulate_rollback s t).1 in
  ∃ direct indirect,
    (simulate_rollback s t).2 = Ok (direct, indirect)
    ∧ simulate_rollback s1 t = (s1, Ok (∅, indirect)).
Proof.
  intros s s1. subst s1.
  assert (Hnd : NoDup (nodes (graph s))) by apply rolled_wf.
  rewrite (simulate_rollback_unfold s t Hnd). simpl.
  rewrite simulate_rollback_unfold by (simpl; by rewrite nodes_revoke).
  simpl. rewrite revoke_revoke, direct_impact_revoke.
  destruct (accessible_resources_total (file_system_data s)
              (revoke (graph s) t)) as [acc ->].
  rewrite !bind_Ok. eauto.
Qed.

(** X4: the simulator reached by a series of rollbacks depends on which
    principals were rolled back, not on their order or on repetitions. *)
Theorem rollbacks_order_irrelevant
    (data : Dict.t (list string)) (targets1 targets2 : list string) :
  (∀ t, t ∈ targets1 ↔ t ∈ targets2) →
  rollbacks (build_dependency_graph (init data)) targets1
  = rollbacks (build_dependency_graph (init data)) targets2.
Proof.
  intros Hsame. apply simulator_eq.
  - by rewrite !rollbacks_data.
  - rewrite !rollbacks_graph by apply wf_built.
    rewrite !foldl_revoke_fmap. apply list_fmap_ext. intros _ e _.
    destruct (decide (e.1 ∈ targets1)) as [H1|H1].
    + by rewrite decide_True by (by apply Hsame).
    + by rewrite decide_False by (by rewrite <- Hsame).
Qed.

Lemma rollbacks_order_irrelevant_witness :
  rollbacks (build_dependency_graph
               (init [("A", ["u1"]); ("B", ["u1"; "u2"])])) ["u1"; "u2"]
  = rollbacks (build_dependency_graph
                 (init [("A", ["u1"]); ("B", ["u1"; "u2"])]))
              ["u2"; "u1"; "u2"].
Proof.
  apply (rollbacks_order_irrelevant
           [("A", ["u1"]); ("B", ["u1"; "u2"])]
           ["u1"; "u2"] ["u2"; "u1"; "u2"]).
  intros t. rewrite !elem_of_cons, !elem_of_nil. tauto.
Defined.

Lemma rolled_edge (data : Dict.t (list string)) (targets : list string)
    (t u v : string) :
  edge (revoke (graph (rollbacks (build_dependency_graph (init data)) targets))
          t) u v
  ↔ granted data u v ∧ u ∉ t :: targets.
Proof.
  rewrite edge_revoke by apply rolled_wf.
  rewrite not_elem_of_cons. split.
  - intros [He ?]. apply edge_elem_of, rolled_edges in He. tauto.
  - intros [Hg [? ?]]. split; [|done].
    apply elem_of_edge; [apply rolled_wf|]. by apply rolled_edges.
Qed.

(** X5: rolling back more principals never rescues a resource: when the
    principals rolled back in one series, its last target included, are
    among those of another, every resource the first reports as indirectly
    impacted is reported by the second. *)
Theorem more_rollbacks_more_orphans
    (data : Dict.t (list string)) (targets1 targets2 : list string)
    (t1 t2 : string) :
  (∀ t, t ∈ t1 :: targets1 → t ∈ t2 :: targets2) →
  ∃ direct1 indirect1 direct2 indirect2,
    (simulate_rollback
       (rollbacks (build_dependency_graph (init data)) targets1) t1).2
    = Ok (direct1, indirect1)
    ∧ (simulate_rollback
         (rollbacks (build_dependency_graph (init data)) targets2) t2).2
      = Ok (direct2, indirect2)
    ∧ indirect1 ⊆ indirect2.
Proof.
  intros Hsub.
  destruct (simulate_rollback_spec _ t1 (rolled_wf data targets1)
    (rolled_keys data targets1)) as [d1 [i1 [Hres1 [_ Hi1]]]].
  destruct (simulate_rollback_spec _ t2 (rolled_wf data targets2)
    (rolled_keys data targets2)) as [d2 [i2 [Hres2 [_ Hi2]]]].
  exists d1, i1, d2, i2. split; [done|]. split; [done|].
  intros x [Hkey Hacc]%Hi1. apply Hi2.
  rewrite rollbacks_data in *. split; [done|].
  intros Hacc2. apply Hacc. revert Hacc2. apply accessible_mono.
  intros u v [Hg Hu]%rolled_edge. apply rolled_edge. split; [done|].
  intros Hin. by apply Hu, Hsub.
Qed.

Lemma more_rollbacks_more_orphans_witness :
  ∃ direct1 indirect1 direct2 indirect2,
    (simulate_rollback
       (rollbacks (build_dependency_graph
                     (init [("A", ["u1"]); ("B", ["u2"])])) []) "u2").2
    = Ok (direct1, indirect1)
    ∧ (simulate_rollback
         (rollbacks (build_dependency_graph
                       (init [("A", ["u1"]); ("B", ["u2"])])) ["u1"]) "u2").2
      = Ok (direct2, indirect2)
    ∧ indirect1 ⊆ indirect2.
Proof.
  apply (more_rollbacks_more_orphans
           [("A", ["u1"]); ("B", ["u2"])] [] ["u1"] "u2" "u2").
  intros t. rewrite !elem_of_cons, !elem_of_nil. tauto.
Defined.

(** ** Building again *)

Section rebuild.
Implicit Types (data : Dict.t (list string)) (g : DiGraph).
Implicit Types (u v r p n : string) (perms : list string).

Lemma add_node_present g n : n ∈ nodes g → add_node g n = g.
Proof.
  intros Hn. unfold add_node. by rewrite (proj2 (has_node_true g n) Hn).
Qed.

Lemma add_edge_present g u v :
  wf_graph g → (u, v) ∈ edges g → add_edge g u v = g.
Proof.
  intros Hwf Huv. unfold add_edge.
  rewrite (add_node_present g u) by by apply edges_source in Huv.
  rewrite (add_node_present g v) by by apply (wf_closed g Hwf u).
  apply alter_id. intros nbrs Hin. unfold add_nbr.
  rewrite decide_True; [done|].
  apply elem_of_edges in Huv as [l [Hl Hv]].
  pose proof (get_NoDup _ _ _ (wf_nodes g Hwf) Hin) as H1.
  pose proof (get_NoDup _ _ _ (wf_nodes g Hwf) Hl) as H2.
  congruence.
Qed.

Lemma add_resource_present g r perms :
  wf_graph g → r ∈ nodes g → (∀ p, p ∈ perms → (p, r) ∈ edges g) →
  add_resource g (r, perms) = g.
Proof.
  intros Hwf Hr Hall. unfold add_resource. simpl.
  rewrite add_node_present by done.
  induction perms as [|p perms IH]; simpl; [done|].
  rewrite add_edge_present; [|done|apply Hall; left].
  apply IH. intros q Hq. apply Hall. by right.
Qed.

Lemma build_graph_present g data :
  wf_graph g →
  (∀ r, r ∈ Dict.keys data → r ∈ nodes g) →
  (∀ p r, granted data p r → (p, r) ∈ edges g) →
  build_graph g data = g.
Proof.
  intros Hwf. unfold build_graph, Dict.items.
  induction data as [|[r perms] data IH]; intros Hkeys Hgr; simpl; [done|].
  rewrite add_resource_present; [|done| |].
  - apply IH.
    + intros r' Hr'. apply Hkeys. by right.
    + intros p r' Hg. apply Hgr, granted_cons. by right.
  - apply Hkeys. left.
  - intros p Hp. apply Hgr, granted_cons. by left.
Qed.

End rebuild.

(** X6: calling [build_dependency_graph] a second time leaves the simulator as
    the first call made it: every node and edge is already there. *)
Theorem build_twice_is_build_once (data : Dict.t (list string)) :
  build_dependency_graph (build_dependency_graph (init data))
  = build_dependency_graph (init data).
Proof.
  apply simulator_eq; [done|].
  unfold build_dependency_graph at 1. simpl.
  apply (build_graph_present (build_graph empty_graph data) data).
  - apply wf_built.
  - apply keys_built.
  - intros p r. apply built_edges.
Qed.

(** X7: calling [build_dependency_graph] again after any rollbacks puts the
    removed edges back: the next [simulate_rollback] returns what it
    returns on a graph built afresh from the mapping. *)
Theorem rebuild_after_rollbacks_resets
    (data : Dict.t (list string)) (targets : list string) (t : string) :
  (simulate_rollback
     (build_dependency_graph
        (rollbacks (build_dependency_graph (init data)) targets)) t).2
  = (run data t).2.
Proof.
  set (s := build_dependency_graph
              (rollbacks (build_dependency_graph (init data)) targets)).
  assert (Hdata : file_system_data s = data).
  { unfold s. simpl. by rewrite rollbacks_data. }
  assert (Hwf : wf_graph (graph s)).
  { unfold s. simpl. apply wf_build_graph, rolled_wf. }
  assert (Hedges : ∀ u v, (u, v) ∈ edges (graph s) ↔ granted data u v).
  { intros u v. unfold s. simpl.
    rewrite rollbacks_data, build_graph_edges, rolled_edges. simpl. tauto. }
  assert (Hkeys : ∀ r, r ∈ Dict.keys (file_system_data s) → r ∈ nodes (graph s)).
  { intros r Hr. unfold s. simpl. apply build_graph_nodes.
    right. left. by rewrite Hdata in Hr; rewrite rollbacks_data. }
  destruct (simulate_rollback_spec s t Hwf Hkeys)
    as [d [i [Hres [Hd Hi]]]].
  destruct (simulate_rollback_spec (build_dependency_graph (init data)) t
    (wf_built data) (keys_built data)) as [d0 [i0 [Hres0 [Hd0 Hi0]]]].
  unfold run. rewrite Hres, Hres0.
  assert (Hedge : ∀ u v,
    edge (revoke (graph s) t) u v
    ↔ edge (revoke (graph (build_dependency_graph (init data))) t) u v).
  { intros u v. rewrite !edge_revoke by (apply Hwf || apply wf_built).
    split; intros [He ?]; (split; [|done]).
    - apply elem_of_edge; [apply wf_built|].
      by apply built_edges, Hedges, edge_elem_of.
    - apply elem_of_edge; [apply Hwf|].
      by apply Hedges, built_edges, edge_elem_of. }
  f_equal. f_equal; apply set_eq; intros x.
  - by rewrite Hd, Hd0, Hedges, built_edges.
  - rewrite Hi, Hi0, Hdata. simpl.
    split; intros [Hk Hacc]; (split; [done|]); intros Hacc'; apply Hacc;
      revert Hacc'; apply accessible_mono; intros u v; apply Hedge.
Qed.

(** ** [display_results] *)

Section display.
Implicit Types (s : gset string) (x : string).

Lemma str_le_total : Total str_le.
Proof. intros a b. apply String.leb_total. Qed.

Lemma elem_of_sorted s x : x ∈ sorted s ↔ x ∈ s.
Proof.
  unfold sorted. by rewrite (merge_sort_Permutation str_le), elem_of_elements.
Qed.

Lemma NoDup_sorted s : NoDup (sorted s).
Proof.
  unfold sorted. rewrite (merge_sort_Permutation str_le). apply NoDup_elements.
Qed.

Lemma Sorted_sorted s : Sorted str_le (sorted s).
Proof. apply Sorted_merge_sort, str_le_total. Qed.

Lemma length_sorted s : length (sorted s) = size s.
Proof. unfold sorted. by rewrite (merge_sort_Permutation str_le). Qed.

End display.

(** X8: the table has one row for each directly impacted resource followed by
    one row for each indirectly impacted resource, each group without
    repetition and in ascending order of the resource names. *)
Theorem display_results_rows (impacted indirectly_impacted : gset string) :
  let rows := display_results impacted indirectly_impacted in
  length rows = size impacted + size indirectly_impacted
  ∧ (∀ r, ("Directly Impacted", r) ∈ rows ↔ r ∈ impacted)
  ∧ (∀ r, ("Indirectly Impacted", r) ∈ rows ↔ r ∈ indirectly_impacted)
  ∧ ∃ first second,
      rows = ((λ r, ("Directly Impacted", r)) <$> first)
             ++ ((λ r, ("Indirectly Impacted", r)) <$> second)
      ∧ Sorted str_le first ∧ NoDup first
      ∧ Sorted str_le second ∧ NoDup second.
Proof.
  unfold display_results. repeat split.
  - by rewrite length_app, !length_fmap, !length_sorted.
  - intros [Hin|Hin]%elem_of_app;
      apply list_elem_of_fmap in Hin as [x [[=] Hx]]; subst.
    by apply elem_of_sorted.
  - intros Hr. apply elem_of_app. left. apply list_elem_of_fmap.
    exists r. split; [done|]. by apply elem_of_sorted.
  - intros [Hin|Hin]%elem_of_app;
      apply list_elem_of_fmap in Hin as [x [[=] Hx]]; subst.
    by apply elem_of_sorted.
  - intros Hr. apply elem_of_app. right. apply list_elem_of_fmap.
    exists r. split; [done|]. by apply elem_of_sorted.
  - exists (sorted impacted), (sorted indirectly_impacted).
    split; [done|].
    repeat split; apply Sorted_sorted || apply NoDup_sorted.
Qed.

(** ** [main] *)

Section validation.
Implicit Types (data : Dict.t (list string)) (items : list (string * pyvalue)).
Implicit Types (v : list pyvalue) (l : list string).

Lemma check_strings_inr v l : check_strings v = inr l ↔ v = PyStr <$> l.
Proof.
  revert l. induction v as [|x v IH]; intros l; simpl.
  - split; [by intros [= <-]|]. by destruct l.
  - destruct x; try (split; [done|by destruct l]).
    destruct (check_strings v) as [msg|l'] eqn:Hv.
    + split; [done|]. destruct l as [|a l]; [done|]. intros [= -> Hl].
      by apply IH in Hl.
    + split.
      * intros [= <-]. simpl. f_equal. by apply IH.
      * destruct l as [|a l]; [done|]. intros [= -> Hl].
        apply IH in Hl. by simplify_eq.
Qed.

Lemma check_strings_inl v msg :
  check_strings v = inl msg → msg = ListValuesMustBeStrings.
Proof.
  induction v as [|x v IH]; simpl; [done|].
  destruct x; try by intros [= <-].
  destruct (check_strings v); [|done]. intros [= <-]. by apply IH.
Qed.

Lemma check_items_inr items data :
  check_items items = inr data
  ↔ items = (λ item, (item.1, PyList (PyStr <$> item.2))) <$> data.
Proof.
  revert data. induction items as [|[k x] items IH]; intros data; simpl.
  - split; [by intros [= <-]|]. by destruct data.
  - destruct x as [| | | |v|]; try (split; [done|by destruct data]).
    destruct (check_strings v) as [msg|l] eqn:Hv.
    + split; [done|]. destruct data as [|[k' l'] data]; [done|].
      intros [= -> Hl _]. apply check_strings_inr in Hl. congruence.
    + apply check_strings_inr in Hv. subst v.
      destruct (check_items items) as [msg|d] eqn:Hd.
      * split; [done|]. destruct data as [|[k' l'] data]; [done|].
        intros [= -> _ Hitems]. by apply IH in Hitems.
      * split.
        -- intros [= <-]. simpl. f_equal. by apply IH.
        -- destruct data as [|[k' l'] data]; [done|].
           intros [= -> Hl Hitems]. apply IH in Hitems. simplify_eq.
           assert (check_strings (PyStr <$> l) = inr l) as H1
             by (by apply check_strings_inr).
           assert (check_strings (PyStr <$> l) = inr l') as H2
             by (by apply check_strings_inr).
           rewrite H1 in H2. by simplify_eq.
Qed.

End validation.

(** X9: the validation in [main] accepts exactly the values that are a
    dictionary of lists of strings, and what it hands to the simulator is
    that mapping, entry for entry and in the same order. *)
Theorem validate_accepts_exactly_mappings
    (v : pyvalue) (data : Dict.t (list string)) :
  validate v = inr data ↔ v = as_pyvalue data.
Proof.
  unfold validate, as_pyvalue.
  destruct v; try (split; [done|by intros [=]]).
  rewrite check_items_inr. split; [by intros ->|by intros [=]].
Qed.


Lemma check_items_cons_good (k : string) (l : list string)
    (items : list (string * pyvalue)) :
  check_items ((k, PyList (PyStr <$> l)) :: items)
  = match check_items items with
    | inl msg => inl msg
    | inr d => inr ((k, l) :: d)
    end.
Proof.
  cbn [check_items].
  by rewrite (proj2 (check_strings_inr (PyStr <$> l) l) eq_refl).
Qed.

(** X10: validation stops at the first item whose value is not a list of
    strings: the message says whether that value is no list at all or a
    list with an element that is no string, and the items after it are
    not looked at. *)
Theorem first_invalid_item_decides
    (good : Dict.t (list string)) (k : string) (x : pyvalue)
    (rest : list (string * pyvalue)) :
  (∀ l : list string, x ≠ PyList (PyStr <$> l)) →
  validate (PyDict (((λ item, (item.1, PyList (PyStr <$> item.2))) <$> good)
                    ++ (k, x) :: rest))
  = inl (match x with
         | PyList _ => ListValuesMustBeStrings
         | _ => ValuesMustBeLists
         end).
Proof.
  intros Hbad. unfold validate.
  induction good as [|[k0 l0] good IH].
  - simpl. destruct x as [| | | |v|]; try done.
    destruct (check_strings v) as [msg|l] eqn:Hv.
    + by apply check_strings_inl in Hv as ->.
    + apply check_strings_inr in Hv. by destruct (Hbad l); subst.
  - rewrite fmap_cons, <- app_comm_cons. cbn beta iota delta [fst snd].
    by rewrite check_items_cons_good, IH.
Qed.

Lemma first_invalid_item_decides_witness :
  validate (PyDict [("A", PyList [PyStr "u1"]);
                    ("B", PyList [PyStr "u1"; PyNumber "7"]);
                    ("C", PyStr "u2")])
  = inl ListValuesMustBeStrings.
Proof.
  apply (first_invalid_item_decides [("A", ["u1"])] "B"
           (PyList [PyStr "u1"; PyNumber "7"]) [("C", PyStr "u2")]).
  intros [|a [|b [|c l]]]; discriminate.
Defined.




(** X13: without a call of [build_dependency_graph] the graph is empty, and
    [simulate_rollback] then reports no direct impact and every key of the
    mapping as indirectly impacted, whoever the target is. *)
Theorem rollback_before_build_orphans_everything
    (data : Dict.t (list string)) (t : string) :
  simulate_rollback (init data) t
  = (init data, Ok (∅, list_to_set (Dict.keys data))).
Proof.
  unfold simulate_rollback, init. simpl.
  unfold accessible_resources. simpl.
  by rewrite difference_empty_L.
Qed.
